(** * Notification service: rate limiter, cache service, in-app mailbox,
      request validation and template substitution.

    Shallow embedding of
      - backend/src/utils/redis.ts            (CacheService)
      - backend/src/middleware/rateLimiter.ts (RedisRateLimiter)
      - backend/src/middleware/validation.ts  (notificationValidation)
      - services/inAppService.ts              (InAppService)
      - services/smsService.ts, emailService.ts (template sending)

    JavaScript numbers are idealised as [Z] (all the quantities below are
    integer counts and millisecond timestamps, exact in a double below 2^53);
    strings are [string]s of 8-bit code units. *)

From Stdlib Require Import ZArith Ascii String List Lia Bool.
From stdpp Require Import base tactics option list gmap strings pretty.

Local Open Scope string_scope.
Local Open Scope Z_scope.
Local Set Warnings "-register-all".

(** ** JavaScript values that travel through the services *)

(** [any]-typed leaves: template variables and the [data] payload. *)
Inductive jsval :=
  | JUndefined
  | JNull
  | JBool (b : bool)
  | JNum (z : Z)
  | JStr (s : string)
  | JObject (entries : list (string * jsval)).

(** [String(value)]. *)
Definition js_String (v : jsval) : string :=
  match v with
  | JUndefined => "undefined"
  | JNull => "null"
  | JBool true => "true"
  | JBool false => "false"
  | JNum z => pretty z
  | JStr s => s
  | JObject _ => "[object Object]"
  end.

Inductive NotificationType := info | success | warning | error.

(** interface InAppNotification *)
Record InAppNotification := mkNotification {
  n_id : string;
  n_to : string;
  n_title : option string;
  n_message : string;
  n_type : option NotificationType;
  n_data : option (list (string * jsval));
  n_timestamp : string;
  n_read : option bool;
}.

(** interface NotificationOptions *)
Record NotificationOptions := mkOptions {
  o_to : string;
  o_title : option string;
  o_message : string;
  o_type : option NotificationType;
  o_data : option (list (string * jsval));
  o_persistent : option bool;
  o_ttl : option Z;
}.

(** What a Redis key can hold once parsed by [JSON.parse]: a stored
    notification, a mailbox (array of ids) or an integer counter. *)
Inductive value :=
  | VNotification (n : InAppNotification)
  | VIds (ids : list string)
  | VInt (z : Z).

(** A key with its expiry instant (milliseconds), if it has one. *)
Record Entry := mkEntry { e_val : value; e_exp : option Z }.

(** ** Socket.IO server *)

Definition SocketId := nat.

Inductive Event :=
  | EvNotification (n : InAppNotification)
  | EvPendingNotifications (l : list value)
  | EvNotificationRead (notificationId : string)
  | EvAllNotificationsRead
  | EvNotificationDeleted (notificationId : string).

Record Server := mkServer {
  rooms : gmap string (list SocketId);   (* room name -> sockets in it *)
  sent : list (SocketId * Event);        (* packets pushed so far *)
}.

(** ** The world the services run in *)

Inductive Level := LError | LWarn | LInfo | LDebug.

Inductive Exn :=
  | RedisError (msg : string)
  | TypeError (msg : string)
  | SyntaxError (msg : string)
  | AppError (message : string) (statusCode : Z) (code : string).

Record World := mkWorld {
  clock : Z;                     (* Date.now() *)
  redis : gmap string Entry;     (* the Redis key space *)
  faults : list bool;            (* connection schedule: [true] = the next
                                    command raises; [] = always reachable *)
  logs : list (Level * string);  (* logger output, oldest first *)
  io : option Server;            (* InAppService.io *)
  isConfigured : bool;           (* InAppService.isConfigured *)
}.

Definition set_clock (t : Z) (w : World) : World :=
  mkWorld t (redis w) (faults w) (logs w) (io w) (isConfigured w).
Definition set_redis (r : gmap string Entry) (w : World) : World :=
  mkWorld (clock w) r (faults w) (logs w) (io w) (isConfigured w).
Definition set_faults (f : list bool) (w : World) : World :=
  mkWorld (clock w) (redis w) f (logs w) (io w) (isConfigured w).
Definition add_log (l : Level * string) (w : World) : World :=
  mkWorld (clock w) (redis w) (faults w) (logs w ++ [l]) (io w) (isConfigured w).
Definition set_io (s : option Server) (w : World) : World :=
  mkWorld (clock w) (redis w) (faults w) (logs w) s (isConfigured w).

(** ** A state-and-exception monad for async methods *)

Inductive Outcome (A : Type) :=
  | Ok (a : A)
  | Throw (e : Exn).
Arguments Ok {A} a.
Arguments Throw {A} e.

Definition M (A : Type) : Type := World -> Outcome A * World.

Definition ret {A} (a : A) : M A := fun w => (Ok a, w).
Definition throw {A} (e : Exn) : M A := fun w => (Throw e, w).
Definition bind {A B} (m : M A) (k : A -> M B) : M B :=
  fun w => match m w with
           | (Ok a, w') => k a w'
           | (Throw e, w') => (Throw e, w')
           end.
Definition try_catch {A} (m : M A) (h : Exn -> M A) : M A :=
  fun w => match m w with
           | (Ok a, w') => (Ok a, w')
           | (Throw e, w') => h e w'
           end.
Definition gets {A} (f : World -> A) : M A := fun w => (Ok (f w), w).
Definition modify (f : World -> World) : M unit := fun w => (Ok tt, f w).

Notation "'let!' x ':=' c 'in' k" := (bind c (fun x => k))
  (at level 10, x pattern, c at level 100, k at level 200).
Notation "c ';;' k" := (bind c (fun _ => k))
  (at level 100, k at level 200, right associativity).

Definition Date_now : M Z := gets clock.
Definition logger (lvl : Level) (msg : string) : M unit := modify (add_log (lvl, msg)).

(** [for (const x of xs) { await body(x) }] *)
Fixpoint for_of {A} (xs : list A) (body : A -> M unit) : M unit :=
  match xs with
  | [] => ret tt
  | x :: xs' => body x ;; for_of xs' body
  end.

(** ** Redis commands (ioredis) *)

Definition expired (now : Z) (e : Entry) : bool :=
  match e_exp e with
  | Some t => t <=? now
  | None => false
  end.

(** The entry a command finds under [k]: expired keys are gone. *)
Definition live (w : World) (k : string) : option Entry :=
  match redis w !! k with
  | Some e => if expired (clock w) e then None else Some e
  | None => None
  end.

(** Every command is one round trip and raises when the connection is down. *)
Definition round_trip : M unit := fun w =>
  match faults w with
  | true :: fs => (Throw (RedisError "connection"), set_faults fs w)
  | false :: fs => (Ok tt, set_faults fs w)
  | [] => (Ok tt, w)
  end.

Definition redis_put (k : string) (e : Entry) : M unit :=
  modify (fun w => set_redis (<[k := e]> (redis w)) w).
Definition redis_remove (k : string) : M unit :=
  modify (fun w => set_redis (delete k (redis w)) w).

Definition redis_get (k : string) : M (option value) :=
  round_trip ;; let! e := gets (fun w => live w k) in ret (e_val <$> e).

Definition redis_set (k : string) (v : value) : M unit :=
  round_trip ;; redis_put k (mkEntry v None).

Definition redis_setex (k : string) (ttl : Z) (v : value) : M unit :=
  round_trip ;;
  if ttl <=? 0 then throw (RedisError "ERR invalid expire time in setex")
  else let! now := Date_now in redis_put k (mkEntry v (Some (now + ttl * 1000))).

Definition redis_del (k : string) : M unit :=
  round_trip ;; redis_remove k.

Definition redis_incr (k : string) : M Z :=
  round_trip ;;
  let! e := gets (fun w => live w k) in
  match e with
  | None => redis_put k (mkEntry (VInt 1) None) ;; ret 1
  | Some (mkEntry (VInt z) exp) => redis_put k (mkEntry (VInt (z + 1)) exp) ;; ret (z + 1)
  | Some _ => throw (RedisError "ERR value is not an integer or out of range")
  end.

Definition redis_expire (k : string) (ttl : Z) : M unit :=
  round_trip ;;
  let! e := gets (fun w => live w k) in
  match e with
  | None => ret tt
  | Some (mkEntry v _) =>
      if ttl <=? 0 then redis_remove k
      else let! now := Date_now in redis_put k (mkEntry v (Some (now + ttl * 1000)))
  end.

Definition redis_exists (k : string) : M Z :=
  round_trip ;;
  let! e := gets (fun w => live w k) in
  ret (match e with Some _ => 1 | None => 0 end).

(** ** CacheService (utils/redis.ts) *)

(** Truthiness of an optional number ([if (ttlSeconds)]). *)
Definition truthy_num (n : option Z) : bool :=
  match n with
  | Some z => negb (z =? 0)
  | None => false
  end.

Module CacheService.

Definition get (key : string) : M (option value) :=
  try_catch
    (let! v := redis_get key in ret v)
    (fun _ => logger LError ("Cache get error for key " +:+ key +:+ ":") ;; ret None).

Definition set (key : string) (v : value) (ttlSeconds : option Z) : M bool :=
  try_catch
    ((match ttlSeconds with
      | Some ttl => if truthy_num ttlSeconds then redis_setex key ttl v else redis_set key v
      | None => redis_set key v
      end) ;;
     ret true)
    (fun _ => logger LError ("Cache set error for key " +:+ key +:+ ":") ;; ret false).

Definition del (key : string) : M bool :=
  try_catch
    (redis_del key ;; ret true)
    (fun _ => logger LError ("Cache delete error for key " +:+ key +:+ ":") ;; ret false).

(** The [try] block of [increment]. *)
Definition increment_try (key : string) (ttlSeconds : option Z) : M Z :=
  let! result := redis_incr key in
  (match ttlSeconds with
   | Some ttl => if truthy_num ttlSeconds && (result =? 1)
                 then redis_expire key ttl else ret tt
   | None => ret tt
   end) ;;
  ret result.

Definition increment (key : string) (ttlSeconds : option Z) : M Z :=
  try_catch
    (increment_try key ttlSeconds)
    (fun _ => logger LError ("Cache increment error for key " +:+ key +:+ ":") ;; ret 0).

Definition exists_ (key : string) : M bool :=
  try_catch
    (let! result := redis_exists key in ret (result =? 1))
    (fun _ => logger LError ("Cache exists error for key " +:+ key +:+ ":") ;; ret false).

End CacheService.

(** ** RedisRateLimiter (middleware/rateLimiter.ts) *)

Record RedisRateLimiter := mkLimiter { windowMs : Z; maxRequests : Z }.

Record RateResult := mkRate { allowed : bool; remaining : Z; resetTime : Z }.

(** [Math.ceil(a / b)] for a positive divisor. *)
Definition Math_ceil_div (a b : Z) : Z := - ((- a) / b).

(** [Math.floor(now / windowMs) * windowMs], for [windowMs <> 0]
    (JavaScript yields NaN for a zero window). *)
Definition windowStart (rl : RedisRateLimiter) (now : Z) : Z :=
  now / windowMs rl * windowMs rl.

(** [`rate_limit:${identifier}:${windowStart}`] *)
Definition rate_key (identifier : string) (ws : Z) : string :=
  "rate_limit:" +:+ identifier +:+ ":" +:+ pretty ws.

Definition isAllowed (rl : RedisRateLimiter) (identifier : string) : M RateResult :=
  try_catch
    (let! now := Date_now in
     let ws := windowStart rl now in
     let key := rate_key identifier ws in
     let! current := CacheService.increment key (Some (Math_ceil_div (windowMs rl) 1000)) in
     let remaining := Z.max 0 (maxRequests rl - current) in
     let resetTime := ws + windowMs rl in
     ret (mkRate (current <=? maxRequests rl) remaining resetTime))
    (fun _ =>
       logger LError "Rate limiter error:" ;;
       let! now := Date_now in
       ret (mkRate true (maxRequests rl) (now + windowMs rl))).

(** The limiter instances of the module. *)
Definition authRateLimiter := mkLimiter (15 * 60 * 1000) 5.
Definition batchRateLimiter := mkLimiter (60 * 60 * 1000) 5.

(** A request stream: each call happens at its own [Date.now()]. *)
Definition call (rl : RedisRateLimiter) (c : Z * string) (w : World) : Outcome RateResult * World :=
  isAllowed rl c.2 (set_clock c.1 w).

Fixpoint run (rl : RedisRateLimiter) (calls : list (Z * string)) (w : World)
  : list (Outcome RateResult) * World :=
  match calls with
  | [] => ([], w)
  | c :: cs =>
      let '(r, w1) := call rl c w in
      let '(rs, w2) := run rl cs w1 in
      (r :: rs, w2)
  end.

Definition empty_world : World := mkWorld 0 ∅ [] [] None false.


(** What [isAllowed] answers when the counter reads [n]. *)
Definition answer (rl : RedisRateLimiter) (ws n : Z) : RateResult :=
  mkRate (n <=? maxRequests rl) (Z.max 0 (maxRequests rl - n)) (ws + windowMs rl).

Fixpoint has_colon (s : string) : bool :=
  match s with
  | EmptyString => false
  | String c s' => Ascii.eqb c ":" || has_colon s'
  end.

(** ** Counting calls and answers *)

Fixpoint count {A} (p : A -> bool) (l : list A) : Z :=
  match l with
  | [] => 0
  | x :: l' => (if p x then 1 else 0) + count p l'
  end.

(** The call is made for [id] inside the window that starts at [ws]. *)
Definition hits (rl : RedisRateLimiter) (id : string) (ws : Z) (c : Z * string) : bool :=
  bool_decide (c.2 = id) && (windowStart rl c.1 =? ws).

Definition is_allowed (r : Outcome RateResult) : bool :=
  match r with
  | Ok r => allowed r
  | Throw _ => false
  end.

(** Calls for [id] in the window at [ws] that were let through. *)
Definition allowed_in_window (rl : RedisRateLimiter) (id : string) (ws : Z)
    (calls : list (Z * string)) (w0 : World) : Z :=
  count (fun cr => hits rl id ws cr.1 && is_allowed cr.2)
        (combine calls (run rl calls w0).1).

(** Calls for [id] with a timestamp in [s, s + len) that were let through. *)
Definition allowed_in_span (rl : RedisRateLimiter) (id : string) (s len : Z)
    (calls : list (Z * string)) (w0 : World) : Z :=
  count (fun cr => bool_decide (cr.1.2 = id) && (s <=? cr.1.1) && (cr.1.1 <? s + len)
                   && is_allowed cr.2)
        (combine calls (run rl calls w0).1).

(** The counter of [(id, ws)] reads [c]; once created it outlives the window. *)
Definition counter_is (rl : RedisRateLimiter) (id : string) (ws c : Z) (w : World) : Prop :=
  faults w = [] ∧
  if c =? 0 then redis w !! rate_key id ws = None
  else ∃ e, redis w !! rate_key id ws = Some (mkEntry (VInt c) (Some e))
            ∧ ws + windowMs rl <= e.

(** ** Socket.IO rooms *)

Definition room_sockets (srv : Server) (room : string) : list SocketId :=
  default [] (rooms srv !! room).

(** [io.to(room).emit(event, payload)]: one packet per socket of the room. *)
Definition emit_to (room : string) (ev : Event) (srv : Server) : Server :=
  mkServer (rooms srv) (sent srv ++ map (fun s => (s, ev)) (room_sockets srv room)).

(** [socket.join(room)] *)
Definition socket_join (sid : SocketId) (room : string) (srv : Server) : Server :=
  if bool_decide (sid ∈ room_sockets srv room) then srv
  else mkServer (<[room := (room_sockets srv room ++ [sid])%list]> (rooms srv)) (sent srv).

(** [this.io?.to(room).emit(event, payload)] *)
Definition io_emit (room : string) (ev : Event) : M unit :=
  modify (fun w => set_io (emit_to room ev <$> io w) w).

(** ** InAppService (services/inAppService.ts) *)

(** [Partial<NotificationOptions>] as passed to [sendTemplateNotification];
    [to] and [message] are overwritten there. *)
Record PartialOptions := mkPartial {
  p_title : option string;
  p_type : option NotificationType;
  p_data : option (list (string * jsval));
  p_persistent : option bool;
  p_ttl : option Z;
}.

(** What [Date.now()]-independent randomness a send consumes:
    [Math.random().toString(36).substr(2, 9)] and [new Date().toISOString()]. *)
Record Entropy := mkEntropy { rnd : string; iso : string }.

(** [ttl || 86400] *)
Definition ttl_or_default (ttl : option Z) : Z :=
  match ttl with
  | Some t => if t =? 0 then 86400 else t
  | None => 86400
  end.

(** JavaScript truthiness of a parsed cache value. *)
Definition truthy (v : value) : bool :=
  match v with
  | VNotification _ => true
  | VIds _ => true
  | VInt z => negb (z =? 0)
  end.

(** [notification.read] on whatever was parsed ([undefined] is falsy). *)
Definition field_read (v : value) : bool :=
  match v with
  | VNotification n => default false (n_read n)
  | _ => false
  end.

(** [await cache.get<string[]>(key) || []], followed by an array method:
    a truthy non-array has no such method. *)
Definition as_id_array (got : option value) : M (list string) :=
  match got with
  | None => ret []
  | Some (VIds l) => ret l
  | Some (VInt z) => if z =? 0 then ret [] else throw (TypeError "not a function")
  | Some (VNotification _) => throw (TypeError "not a function")
  end.

(** [ids.slice(0, limit)] *)
Definition slice0 {A} (limit : Z) (l : list A) : list A :=
  if limit <? 0 then take (Z.to_nat (Z.of_nat (length l) + limit)) l
  else take (Z.to_nat limit) l.

Module InAppService.

Definition user_room (userId : string) : string := "user:" +:+ userId.
Definition mailbox_key (userId : string) : string := "notifications:" +:+ userId.
Definition body_key (id : string) : string := "notification:" +:+ id.

(** [`notif_${Date.now()}_${Math.random().toString(36).substr(2, 9)}`] *)
Definition generateNotificationId (en : Entropy) : M string :=
  let! now := Date_now in ret ("notif_" +:+ pretty now +:+ "_" +:+ rnd en).

Definition deliverNotification (notification : InAppNotification) : M bool :=
  let! server := gets io in
  match server with
  | None => ret false
  | Some srv =>
      try_catch
        (let userRoom := user_room (n_to notification) in
         let sockets := room_sockets srv userRoom in
         if (length sockets =? 0)%nat then ret false
         else io_emit userRoom (EvNotification notification) ;; ret true)
        (fun _ => logger LError "Failed to deliver notification:" ;; ret false)
  end.

Definition storeNotification (notification : InAppNotification) (ttl : option Z) : M bool :=
  try_catch
    (let key := mailbox_key (n_to notification) in
     let notificationKey := body_key (n_id notification) in
     CacheService.set notificationKey (VNotification notification)
                      (Some (ttl_or_default ttl)) ;;
     let! got := CacheService.get key in
     let! userNotifications := as_id_array got in
     let userNotifications := n_id notification :: userNotifications in
     let! userNotifications :=
       (if (100 <? length userNotifications)%nat then
          let removedIds := drop 100 userNotifications in
          for_of removedIds (fun id => CacheService.del (body_key id) ;; ret tt) ;;
          ret (take 100 userNotifications)
        else ret userNotifications) in
     CacheService.set key (VIds userNotifications) (Some (ttl_or_default ttl)) ;;
     ret true)
    (fun _ => logger LError "Failed to store notification:" ;; ret false).

Definition sendNotification (en : Entropy) (options : NotificationOptions)
  : M (bool * bool) :=
  let! configured := gets isConfigured in
  if negb configured then
    throw (AppError "In-app service not configured" 503 "INAPP_SERVICE_UNAVAILABLE")
  else
    try_catch
      (let! id := generateNotificationId en in
       let notification :=
         mkNotification id (o_to options) (o_title options) (o_message options)
                        (Some (default info (o_type options))) (o_data options)
                        (iso en) (Some false) in
       let! delivered := deliverNotification notification in
       let! stored :=
         (if default false (o_persistent options) || negb delivered
          then storeNotification notification (o_ttl options)
          else ret false) in
       logger LInfo "In-app notification processed" ;;
       ret (delivered, stored))
      (fun _ =>
         logger LError ("Failed to send in-app notification to " +:+ o_to options +:+ ":") ;;
         throw (AppError "Failed to send in-app notification" 500 "INAPP_SEND_FAILED")).

(** The [for ... of] loop of [getUserNotifications]. *)
Fixpoint collect (includeRead : bool) (ids : list string) (notifications : list value)
  : M (list value) :=
  match ids with
  | [] => ret notifications
  | id :: ids' =>
      let! notification := CacheService.get (body_key id) in
      match notification with
      | Some v =>
          if truthy v && (includeRead || negb (field_read v))
          then collect includeRead ids' (notifications ++ [v])%list
          else collect includeRead ids' notifications
      | None => collect includeRead ids' notifications
      end
  end.

Definition getUserNotifications (userId : string) (includeRead : bool) (limit : Z)
  : M (list value) :=
  try_catch
    (let key := mailbox_key userId in
     let! got := CacheService.get key in
     let! notificationIds := as_id_array got in
     collect includeRead (slice0 limit notificationIds) [])
    (fun _ => logger LError "Failed to get user notifications:" ;; ret []).

Definition sendPendingNotifications (userId : string) : M unit :=
  try_catch
    (let! notifications := getUserNotifications userId false 50 in
     if (0 <? length notifications)%nat then
       io_emit (user_room userId) (EvPendingNotifications notifications) ;;
       logger LDebug "Sent pending notifications to user"
     else ret tt)
    (fun _ => logger LError "Failed to send pending notifications:").

(** The ['join'] handler registered by [setupSocketHandlers]. *)
Definition on_join (socket : SocketId) (userId : string) : M unit :=
  modify (fun w => set_io (socket_join socket (user_room userId) <$> io w) w) ;;
  logger LDebug "User joined personal room" ;;
  sendPendingNotifications userId.

Definition mark_read (n : InAppNotification) : InAppNotification :=
  mkNotification (n_id n) (n_to n) (n_title n) (n_message n) (n_type n) (n_data n)
                 (n_timestamp n) (Some true).

Definition markNotificationAsRead (notificationId userId : string) : M unit :=
  try_catch
    (let! notification := CacheService.get (body_key notificationId) in
     match notification with
     | Some (VNotification n) =>
         if bool_decide (n_to n = userId) then
           CacheService.set (body_key notificationId) (VNotification (mark_read n)) None ;;
           io_emit (user_room userId) (EvNotificationRead notificationId)
         else ret tt
     | _ => ret tt
     end)
    (fun _ => logger LError "Failed to mark notification as read:").

Definition deleteNotification (notificationId userId : string) : M unit :=
  try_catch
    (let! notification := CacheService.get (body_key notificationId) in
     match notification with
     | Some (VNotification n) =>
         if bool_decide (n_to n = userId) then
           let key := mailbox_key userId in
           let! got := CacheService.get key in
           let! notificationIds := as_id_array got in
           let updatedIds :=
             List.filter (fun id => negb (bool_decide (id = notificationId))) notificationIds in
           CacheService.set key (VIds updatedIds) None ;;
           CacheService.del (body_key notificationId) ;;
           io_emit (user_room userId) (EvNotificationDeleted notificationId)
         else ret tt
     | _ => ret tt
     end)
    (fun _ => logger LError "Failed to delete notification:").

(** The loop body of [markAllNotificationsAsRead]: [notification.read = true]
    followed by [cache.set(`notification:${notification.id}`, notification)].
    An array takes the property, has no [id] and is serialised without the
    property; assigning a property on a number raises in strict mode. *)
Definition mark_and_store (v : value) : M unit :=
  match v with
  | VNotification n =>
      CacheService.set (body_key (n_id n)) (VNotification (mark_read n)) None ;; ret tt
  | VIds l => CacheService.set (body_key "undefined") (VIds l) None ;; ret tt
  | VInt _ => throw (TypeError "Cannot create property 'read' on number")
  end.

Definition markAllNotificationsAsRead (userId : string) : M unit :=
  try_catch
    (let! notifications := getUserNotifications userId false 50 in
     for_of notifications mark_and_store ;;
     io_emit (user_room userId) EvAllNotificationsRead ;;
     logger LDebug ("Marked " +:+ pretty (Z.of_nat (length notifications))
                    +:+ " notifications as read for user " +:+ userId))
    (fun _ => logger LError "Failed to mark all notifications as read:").

Definition getUnreadCount (userId : string) : M Z :=
  try_catch
    (let! notifications := getUserNotifications userId false 50 in
     ret (Z.of_nat (length notifications)))
    (fun _ => logger LError "Failed to get unread count:" ;; ret 0).

End InAppService.

(** ** Regular expressions of the validators

    The patterns used for recipients are anchored at both ends and use
    only character classes, concatenation, [?], [+] and bounded
    repetition; [test] on them is language membership, decided here by
    derivatives. *)

Inductive regex :=
  | RNone
  | REps
  | RClass (p : ascii -> bool)
  | RCat (r1 r2 : regex)
  | RAlt (r1 r2 : regex)
  | RStar (r : regex).

Fixpoint nullable (r : regex) : bool :=
  match r with
  | RNone => false
  | REps => true
  | RClass _ => false
  | RCat r1 r2 => nullable r1 && nullable r2
  | RAlt r1 r2 => nullable r1 || nullable r2
  | RStar _ => true
  end.

Fixpoint deriv (c : ascii) (r : regex) : regex :=
  match r with
  | RNone => RNone
  | REps => RNone
  | RClass p => if p c then REps else RNone
  | RCat r1 r2 =>
      if nullable r1 then RAlt (RCat (deriv c r1) r2) (deriv c r2)
      else RCat (deriv c r1) r2
  | RAlt r1 r2 => RAlt (deriv c r1) (deriv c r2)
  | RStar r1 => RCat (deriv c r1) (RStar r1)
  end.

(** [/^r$/.test(s)] *)
Fixpoint test (r : regex) (s : string) : bool :=
  match s with
  | EmptyString => nullable r
  | String c s' => test (deriv c r) s'
  end.

Definition RPlus (r : regex) : regex := RCat r (RStar r).
Definition ROpt (r : regex) : regex := RAlt REps r.
(** [r{0,k}] *)
Fixpoint RUpTo (r : regex) (k : nat) : regex :=
  match k with
  | O => REps
  | S k' => ROpt (RCat r (RUpTo r k'))
  end.

(** [\s] on 8-bit code units: TAB, LF, VT, FF, CR, SPACE and NBSP. *)
Definition is_space (c : ascii) : bool :=
  let n := nat_of_ascii c in
  ((9 <=? n) && (n <=? 13) || (n =? 32) || (n =? 160))%nat.
(** [\d] *)
Definition is_digit (c : ascii) : bool :=
  let n := nat_of_ascii c in ((48 <=? n) && (n <=? 57))%nat.
Definition is_char (a c : ascii) : bool := Ascii.eqb a c.

(** [[^\s@]] *)
Definition not_space_at (c : ascii) : bool := negb (is_space c || is_char "@" c).

(** [/^[^\s@]+@[^\s@]+\.[^\s@]+$/] *)
Definition email_re : regex :=
  RCat (RPlus (RClass not_space_at))
    (RCat (RClass (is_char "@"))
       (RCat (RPlus (RClass not_space_at))
          (RCat (RClass (is_char "."))
             (RPlus (RClass not_space_at))))).

(** [/^\+?[1-9]\d{1,14}$/] *)
Definition phone_re : regex :=
  RCat (ROpt (RClass (is_char "+")))
    (RCat (RClass (fun c => is_digit c && negb (is_char "0" c)))
       (RCat (RClass is_digit) (RUpTo (RClass is_digit) 13))).

(** [s.replace(/\s/g, '')] *)
Fixpoint remove_spaces (s : string) : string :=
  match s with
  | EmptyString => EmptyString
  | String c s' => if is_space c then remove_spaces s' else String c (remove_spaces s')
  end.

(** [validator.trim]: whitespace stripped at both ends. *)
Fixpoint ltrim (s : string) : string :=
  match s with
  | EmptyString => EmptyString
  | String c s' => if is_space c then ltrim s' else s
  end.
Definition trim (s : string) : string :=
  String.rev (ltrim (String.rev (ltrim s))).

(** ** Request validation (middleware/validation.ts) *)

(** [validateRecipientFormat] *)
Definition validateRecipientFormat (channel recipient : string) : bool :=
  if String.eqb channel "EMAIL" then test email_re recipient
  else if String.eqb channel "SMS" then test phone_re (remove_spaces recipient)
  else if String.eqb channel "IN_APP" then (0 <? String.length recipient)%nat
  else false.

(** [req.body] of a notification request; an absent field is [JUndefined]. *)
Record ReqBody := mkBody {
  b_to : jsval;
  b_channel : jsval;
  b_subject : jsval;
  b_message : jsval;
  b_templateId : jsval;
  b_variables : jsval;
  b_sendAt : jsval;
}.

(** One entry of [validationResult(req).array()], as formatted by
    [handleValidationErrors]. *)
Record FieldError := mkFieldError { fe_field : string; fe_message : string; fe_value : jsval }.

Record Response := mkResponse {
  status : Z;
  r_success : bool;
  r_error : string;
  r_code : string;
  r_details : list FieldError;
}.

(** The pieces of validator.js and [Date] that the chains call and that are
    not text matching: [isISO8601] and [new Date(value).getTime()]
    ([None] for an invalid date). *)
Class ValidatorJs := {
  isISO8601 : string -> bool;
  Date_getTime : jsval -> option Z;
}.

(** express-validator's [toString] of a field value. *)
Definition ev_toString (v : jsval) : string :=
  match v with
  | JUndefined | JNull => ""
  | _ => js_String v
  end.

Definition is_undefined (v : jsval) : bool :=
  match v with JUndefined => true | _ => false end.

(** The [custom] validator of [body('to')]: [None] when it returns [true],
    the message of the error it throws otherwise. *)
Definition to_custom (value channel : jsval) : option string :=
  match channel with
  | JStr c =>
      if String.eqb c "EMAIL" then
        if test email_re (js_String value) then None else Some "Invalid email format"
      else if String.eqb c "SMS" then
        match value with
        | JStr s =>
            if test phone_re (remove_spaces s) then None
            else Some "Invalid phone number format"
        | _ => Some "value.replace is not a function"
        end
      else None
  | _ => None
  end.

Definition check (ok : bool) (f msg : string) (v : jsval) : list FieldError :=
  if ok then [] else [mkFieldError f msg v].

Definition validate_to (body : ReqBody) : list FieldError :=
  check (negb (String.eqb (ev_toString (b_to body)) "")) "to" "Recipient is required" (b_to body)
  ++ match to_custom (b_to body) (b_channel body) with
     | Some msg => [mkFieldError "to" msg (b_to body)]
     | None => []
     end.

Definition validate_channel (body : ReqBody) : list FieldError :=
  let s := ev_toString (b_channel body) in
  check (String.eqb s "EMAIL" || String.eqb s "SMS" || String.eqb s "IN_APP")
        "channel" "Channel must be EMAIL, SMS, or IN_APP" (b_channel body).

Definition validate_subject (body : ReqBody) : list FieldError :=
  if is_undefined (b_subject body) then []
  else let s := trim (ev_toString (b_subject body)) in
       check (String.length s <=? 200)%nat
             "subject" "Subject must not exceed 200 characters" (JStr s).

Definition validate_message (body : ReqBody) : list FieldError :=
  check (negb (String.eqb (ev_toString (b_message body)) ""))
        "message" "Message is required" (b_message body)
  ++ let s := trim (ev_toString (b_message body)) in
     check ((1 <=? String.length s) && (String.length s <=? 5000))%nat
           "message" "Message must be between 1 and 5000 characters" (JStr s).

Definition validate_templateId (body : ReqBody) : list FieldError :=
  if is_undefined (b_templateId body) then []
  else check (match b_templateId body with JStr _ => true | _ => false end)
             "templateId" "Template ID must be a string" (b_templateId body).

Definition validate_variables (body : ReqBody) : list FieldError :=
  if is_undefined (b_variables body) then []
  else check (match b_variables body with JObject _ => true | _ => false end)
             "variables" "Variables must be an object" (b_variables body).

Definition validate_sendAt `{ValidatorJs} (now : Z) (body : ReqBody) : list FieldError :=
  if is_undefined (b_sendAt body) then []
  else check (isISO8601 (ev_toString (b_sendAt body)))
             "sendAt" "Send date must be a valid ISO8601 date" (b_sendAt body)
       ++ check (match Date_getTime (b_sendAt body) with
                 | Some t => negb (t <=? now)
                 | None => true
                 end)
                "sendAt" "Send date must be in the future" (b_sendAt body).

(** [validationResult(req)] after the seven chains of
    [notificationValidation] have run. *)
Definition validationResult `{ValidatorJs} (now : Z) (body : ReqBody) : list FieldError :=
  validate_to body ++ validate_channel body ++ validate_subject body
  ++ validate_message body ++ validate_templateId body ++ validate_variables body
  ++ validate_sendAt now body.

(** [req.body] as the sanitizers ([trim]) leave it. *)
Definition sanitized (body : ReqBody) : ReqBody :=
  mkBody (b_to body) (b_channel body)
         (if is_undefined (b_subject body) then JUndefined
          else JStr (trim (ev_toString (b_subject body))))
         (JStr (trim (ev_toString (b_message body))))
         (b_templateId body) (b_variables body) (b_sendAt body).

(** [handleValidationErrors]: [Some] response sent, or [None] for [next()]. *)
Definition handleValidationErrors (errors : list FieldError) : option Response :=
  match errors with
  | [] => None
  | _ => Some (mkResponse 400 false "Validation failed" "VALIDATION_ERROR" errors)
  end.

(** A route declared as [router.post(path, notificationValidation, handler)]:
    the handler, which is where a job would be enqueued, runs only when
    the last middleware calls [next()]. *)
Definition notification_route `{ValidatorJs} {Handled : Type}
    (handler : ReqBody -> Handled) (now : Z) (body : ReqBody) : Response + Handled :=
  match handleValidationErrors (validationResult now body) with
  | Some response => inl response
  | None => inr (handler (sanitized body))
  end.

(** ** Template sending (smsService.ts, emailService.ts, inAppService.ts) *)

(** The JavaScript regular-expression engine: [new RegExp(source, flags)]
    ([None] when it throws a SyntaxError), a regular-expression literal, and
    [subject.replace(regexp, replacement)]. *)
Class JsRegExp := {
  RegExp : Type;
  RegExp_new : string -> string -> option RegExp;
  RegExp_literal : string -> string -> RegExp;
  String_replace : string -> RegExp -> string -> string;
}.

(** [Object.entries(variables).forEach(([key, value]) => ...)] over an
    accumulator; [None] when an iteration throws. *)
Fixpoint forEach_entries {S : Type} (entries : list (string * jsval))
    (body : string -> jsval -> S -> option S) (acc : S) : option S :=
  match entries with
  | [] => Some acc
  | (key, value) :: rest =>
      match body key value acc with
      | Some acc' => forEach_entries rest body acc'
      | None => None
      end
  end.

(** [`\\{\\{${key}\\}\\}`] *)
Definition placeholder_source (key : string) : string := "\{\{" +:+ key +:+ "\}\}".

Record SmsOptions := mkSms { sms_to : string; sms_message : string; sms_from : option string }.

Module SmsService.

(** The substitution loop of [sendTemplateSms]. *)
Definition processTemplate `{JsRegExp} (template : string)
    (variables : list (string * jsval)) : option string :=
  forEach_entries variables
    (fun key value processedMessage =>
       match RegExp_new (placeholder_source key) "g" with
       | Some placeholder =>
           Some (String_replace processedMessage placeholder (js_String value))
       | None => None
       end)
    template.

(** [sendSms] hands the message to Twilio and is given as [sendSms]. *)
Definition sendTemplateSms `{JsRegExp} {R : Type} (sendSms : SmsOptions -> M R)
    (to template : string) (variables : list (string * jsval)) : M R :=
  try_catch
    (match processTemplate template variables with
     | Some processedMessage => sendSms (mkSms to processedMessage None)
     | None => throw (SyntaxError "Invalid regular expression")
     end)
    (fun e => logger LError "Failed to send template SMS:" ;; throw e).

(** [generatePreview]: content, character count and segment count. *)
Definition generatePreview `{JsRegExp} (template : string)
    (variables : list (string * jsval)) : option (string * Z * Z) :=
  match processTemplate template variables with
  | Some processedMessage =>
      let characterCount := Z.of_nat (String.length processedMessage) in
      Some (processedMessage, characterCount,
            if 160 <? characterCount then Math_ceil_div characterCount 153 else 1)
  | None => None
  end.

End SmsService.

Record EmailOptions := mkEmail {
  em_to : string;
  em_subject : string;
  em_text : option string;
  em_html : option string;
}.

Module EmailService.

Definition convertToHtml `{JsRegExp} (text : string) : string :=
  let s := String_replace text (RegExp_literal "\n\n" "g") "</p><p>" in
  let s := String_replace s (RegExp_literal "\n" "g") "<br>" in
  let s := String_replace s (RegExp_literal "^" "") "<p>" in
  let s := String_replace s (RegExp_literal "$" "") "</p>" in
  String_replace s (RegExp_literal "<p><\/p>" "g") "".

(** The substitution loop of [sendTemplateEmail]. *)
Definition processTemplate `{JsRegExp} (subject template : string)
    (variables : list (string * jsval)) : option (string * string) :=
  forEach_entries variables
    (fun key value '(processedSubject, processedTemplate) =>
       match RegExp_new (placeholder_source key) "g" with
       | Some placeholder =>
           Some (String_replace processedSubject placeholder (js_String value),
                 String_replace processedTemplate placeholder (js_String value))
       | None => None
       end)
    (subject, template).

Definition sendTemplateEmail `{JsRegExp} {R : Type} (sendEmail : EmailOptions -> M R)
    (to subject template : string) (variables : list (string * jsval)) : M R :=
  try_catch
    (match processTemplate subject template variables with
     | Some (processedSubject, processedTemplate) =>
         let html := convertToHtml processedTemplate in
         sendEmail (mkEmail to processedSubject (Some processedTemplate) (Some html))
     | None => throw (SyntaxError "Invalid regular expression")
     end)
    (fun e => logger LError "Failed to send template email:" ;; throw e).

End EmailService.

(** [error.message] *)
Definition exn_message (e : Exn) : string :=
  match e with
  | RedisError msg | TypeError msg | SyntaxError msg => msg
  | AppError message _ _ => message
  end.

(** One element of the argument of [sendBulkNotifications] and one of its
    result. *)
Record BulkItem := mkBulkItem {
  bi_to : string;
  bi_template : string;
  bi_variables : option (list (string * jsval));
  bi_options : option PartialOptions;
}.

Record BulkResult := mkBulkResult {
  br_to : string;
  br_success : bool;
  br_delivered : option bool;
  br_error : option string;
}.

(** The default [{}] of an absent [options] argument. *)
Definition no_options : PartialOptions := mkPartial None None None None None.

Module InAppTemplates.

(** The substitution loop of [InAppService.sendTemplateNotification]. *)
Definition processTemplate `{JsRegExp} (template title : string)
    (variables : list (string * jsval)) : option (string * string) :=
  forEach_entries variables
    (fun key value '(processedMessage, processedTitle) =>
       match RegExp_new (placeholder_source key) "g" with
       | Some placeholder =>
           Some (String_replace processedMessage placeholder (js_String value),
                 String_replace processedTitle placeholder (js_String value))
       | None => None
       end)
    (template, title).

(** [InAppService.sendTemplateNotification] *)
Definition sendTemplateNotification `{JsRegExp} (en : Entropy) (to template : string)
    (variables : list (string * jsval)) (options : PartialOptions) : M (bool * bool) :=
  try_catch
    (match processTemplate template (default "" (p_title options)) variables with
     | Some (processedMessage, processedTitle) =>
         InAppService.sendNotification en
           (mkOptions to
              (if String.eqb processedTitle "" then p_title options else Some processedTitle)
              processedMessage (p_type options) (p_data options)
              (p_persistent options) (p_ttl options))
     | None => throw (SyntaxError "Invalid regular expression")
     end)
    (fun e => logger LError "Failed to send template in-app notification:" ;; throw e).

(** The loop of [InAppService.sendBulkNotifications]; every send draws its
    own randomness. *)
Fixpoint bulk_loop `{JsRegExp} (notifications : list (Entropy * BulkItem))
    (results : list BulkResult) : M (list BulkResult) :=
  match notifications with
  | [] => ret results
  | (en, notif) :: rest =>
      let! results :=
        try_catch
          (let! result :=
             sendTemplateNotification en (bi_to notif) (bi_template notif)
               (default [] (bi_variables notif)) (default no_options (bi_options notif)) in
           ret (results ++ [mkBulkResult (bi_to notif) true (Some result.1) None])%list)
          (fun error =>
             ret (results ++ [mkBulkResult (bi_to notif) false None
                                (Some (exn_message error))])%list) in
      bulk_loop rest results
  end.

Definition sendBulkNotifications `{JsRegExp} (notifications : list (Entropy * BulkItem))
  : M (list BulkResult) :=
  bulk_loop notifications [].

End InAppTemplates.

(** ** Observations on the world, used to state the in-app properties *)

(** The live sessions of a recipient: the sockets in the user's room. *)
Definition sessions (w : World) (userId : string) : list SocketId :=
  match io w with
  | Some srv => room_sockets srv (InAppService.user_room userId)
  | None => []
  end.

(** Every packet pushed to a socket so far. *)
Definition packets (w : World) : list (SocketId * Event) :=
  match io w with
  | Some srv => sent srv
  | None => []
  end.

(** The recipient's mailbox: the id list a reader finds under the key. *)
Definition mailbox (w : World) (userId : string) : list string :=
  match live w (InAppService.mailbox_key userId) with
  | Some (mkEntry (VIds l) _) => l
  | _ => []
  end.

(** What a notification id resolves to. *)
Definition stored_body (w : World) (id : string) : option value :=
  e_val <$> live w (InAppService.body_key id).

(** The mailbox key is absent or holds an id array. *)
Definition mailbox_typed (w : World) (userId : string) : Prop :=
  match live w (InAppService.mailbox_key userId) with
  | Some (mkEntry (VIds _) _) => True
  | Some _ => False
  | None => True
  end.

(** The unread entries among [ids], in order. *)
Definition unread_of (w : World) (ids : list string) : list value :=
  omap (fun id => match stored_body w id with
                  | Some v => if truthy v && negb (field_read v) then Some v else None
                  | None => None
                  end) ids.

(** ** What the in-app operations leave behind *)

Definition delete_bodies (ids : list string) (m : gmap string Entry) : gmap string Entry :=
  foldl (fun m id => delete (InAppService.body_key id) m) m ids.

(** What [storeNotification] leaves in the key space on a reachable store. *)
Definition stored_redis (n : InAppNotification) (ttl : Z) (old : list string) (w : World)
  : gmap string Entry :=
  <[InAppService.mailbox_key (n_to n) :=
      mkEntry (VIds (take 100 (n_id n :: old))) (Some (clock w + ttl * 1000))]>
    (delete_bodies (drop 100 (n_id n :: old))
       (<[InAppService.body_key (n_id n) :=
            mkEntry (VNotification n) (Some (clock w + ttl * 1000))]> (redis w))).

(** The world after the live push of [deliverNotification]. *)
Definition delivered_world (n : InAppNotification) (w : World) : World :=
  if bool_decide (sessions w (n_to n) ≠ [])
  then set_io (emit_to (InAppService.user_room (n_to n)) (EvNotification n) <$> io w) w
  else w.


(** A world in which [k] notifications were sent to an offline recipient,
    one per millisecond. *)
Fixpoint send_many (userId : string) (k : nat) (w : World) : World :=
  match k with
  | O => w
  | S k' =>
      let w1 := send_many userId k' w in
      (InAppService.sendNotification
         (mkEntropy (pretty k) "2024-01-01T00:00:00.000Z")
         (mkOptions userId None "hello" None None None None)
         (set_clock (clock w1 + 1) w1)).2
  end.

Definition offline_world : World := mkWorld 1000 ∅ [] [] (Some (mkServer ∅ [])) true.

(** ** Frame conditions *)

(** [m] moves every world to one related to it by [P]. *)
Definition preserves {A} (P : World -> World -> Prop) (m : M A) : Prop :=
  ∀ w, P w (m w).2.

(** From [w] to [w'] the only notification written to the key space or
    pushed to a socket is [n]; other writes are id arrays, and keys may
    have been removed. *)
Definition writes (n : InAppNotification) (w w' : World) : Prop :=
  (∀ k e, redis w' !! k = Some e →
          redis w !! k = Some e ∨ e_val e = VNotification n ∨ ∃ l, e_val e = VIds l)
  ∧ ∃ extra, packets w' = (packets w ++ extra)%list
             ∧ ∀ s ev, (s, ev) ∈ extra → ev = EvNotification n.

(** ** A reference engine for plain placeholders

    Enough of [RegExp] to run the substitution on keys without
    metacharacters and values without [$]: the pattern source is read with
    its backslashes dropped, as the literal text to find, and the
    replacement is inserted as it is. *)

Fixpoint drop_backslashes (s : string) : string :=
  match s with
  | EmptyString => EmptyString
  | String c s' => if Ascii.eqb c "\" then drop_backslashes s' else String c (drop_backslashes s')
  end.

Fixpoint replace_literal (needle replacement subject : string) (skip : nat) : string :=
  match subject with
  | EmptyString => EmptyString
  | String c rest =>
      match skip with
      | S k => replace_literal needle replacement rest k
      | O =>
          if String.prefix needle subject
          then replacement +:+ replace_literal needle replacement rest
                                 (String.length needle - 1)
          else String c (replace_literal needle replacement rest 0)
      end
  end.

Definition literal_engine : JsRegExp := {|
  RegExp := string;
  RegExp_new := fun source _ =>
    if String.eqb (drop_backslashes source) "" then None
    else Some (drop_backslashes source);
  RegExp_literal := fun source _ => drop_backslashes source;
  String_replace := fun subject needle replacement =>
    replace_literal needle replacement subject 0;
|}.

(** Every mailbox key of the key space holds an id array. *)
Definition mailboxes_typed (w : World) : Prop :=
  ∀ u e, redis w !! InAppService.mailbox_key u = Some e → ∃ l, e_val e = VIds l.

Definition stays_typed (w w' : World) : Prop :=
  mailboxes_typed w → mailboxes_typed w'.

(** ** Further observations *)

(** [m] returns a value from every world: it never raises. *)
Definition succeeds {A} (m : M A) : Prop :=
  ∀ w, ∃ a w', m w = (Ok a, w').

(** The instant at which a key written by [cache.set(key, value, ttl)] at
    [now] stops being readable, if any. *)
Definition deadline (now : Z) (ttlSeconds : option Z) : option Z :=
  match ttlSeconds with
  | Some ttl => if ttl =? 0 then None else Some (now + ttl * 1000)
  | None => None
  end.

(** ** RedisRateLimiter.middleware (middleware/rateLimiter.ts) *)

(** What the middleware reads of the request: [user?.id], [ip], [path] and
    the User-Agent header. *)
Record Request := mkRequest {
  req_user_id : option string;
  req_ip : option string;
  req_path : string;
  req_user_agent : option string;
}.

(** [a || b] on optional strings: [undefined] and the empty string are falsy. *)
Definition js_or (a b : option string) : option string :=
  match a with
  | Some s => if String.eqb s "" then b else Some s
  | None => b
  end.

(** [authReq.user?.id || req.ip || 'anonymous'] *)
Definition identifier (req : Request) : string :=
  default "anonymous" (js_or (js_or (req_user_id req) (req_ip req)) (Some "anonymous")).

(** The three [X-RateLimit-*] headers; [h_reset] is the instant whose ISO
    string is sent. *)
Record RateLimitHeaders := mkHeaders {
  h_limit : string;
  h_remaining : string;
  h_reset : Z;
}.

(** The JSON body sent with a refusal. *)
Record RateLimitReply := mkReply {
  rr_status : Z;
  rr_error : string;
  rr_code : string;
  rr_retryAfter : Z;
}.

(** What the middleware did with the request: the headers it set, and the
    reply it sent ([None]: it called [next()]). *)
Record Handled := mkHandled {
  set_headers : option RateLimitHeaders;
  reply : option RateLimitReply;
}.

Definition middleware (rl : RedisRateLimiter) (req : Request) : M Handled :=
  try_catch
    (let identifier := identifier req in
     let! result := isAllowed rl identifier in
     let headers :=
       mkHeaders (pretty (maxRequests rl)) (pretty (remaining result)) (resetTime result) in
     if negb (allowed result) then
       logger LWarn ("Rate limit exceeded for " +:+ identifier) ;;
       let! now := Date_now in
       ret (mkHandled (Some headers)
              (Some (mkReply 429 "Too many requests" "RATE_LIMIT_EXCEEDED"
                             (Math_ceil_div (resetTime result - now) 1000))))
     else ret (mkHandled (Some headers) None))
    (fun _ =>
       logger LError "Rate limiter middleware error:" ;;
       ret (mkHandled None None)).

(** [createRateLimiter] *)
Definition createRateLimiter (windowMs maxRequests : Z) : Request -> M Handled :=
  middleware (mkLimiter windowMs maxRequests).

(** Requests arriving one after the other, each at its own instant. *)
Definition serve (rl : RedisRateLimiter) (tr : Z * Request) (w : World)
  : Outcome Handled * World :=
  middleware rl tr.2 (set_clock tr.1 w).

Fixpoint serve_all (rl : RedisRateLimiter) (reqs : list (Z * Request)) (w : World)
  : list (Outcome Handled) * World :=
  match reqs with
  | [] => ([], w)
  | tr :: rest =>
      let '(r, w1) := serve rl tr w in
      let '(rs, w2) := serve_all rl rest w1 in
      (r :: rs, w2)
  end.

(** What the middleware does with the [n]-th request of a window, made at [t]. *)
Definition nth_handled (rl : RedisRateLimiter) (ws n t : Z) : Handled :=
  mkHandled
    (Some (mkHeaders (pretty (maxRequests rl))
                     (pretty (Z.max 0 (maxRequests rl - n)))
                     (ws + windowMs rl)))
    (if n <=? maxRequests rl then None
     else Some (mkReply 429 "Too many requests" "RATE_LIMIT_EXCEEDED"
                        (Math_ceil_div (ws + windowMs rl - t) 1000))).

(** ** Observations on the mailbox operations *)

(** Every id of [ids] that resolves at all resolves to a notification
    stored under its own id. *)
Definition page_wf (w : World) (ids : list string) : bool :=
  forallb (fun id => match stored_body w id with
                     | Some (VNotification n) => String.eqb (n_id n) id
                     | Some _ => false
                     | None => true
                     end) ids.

(** The packets a room broadcast adds. *)
Definition broadcast (w : World) (userId : string) (ev : Event) : list (SocketId * Event) :=
  map (fun s => (s, ev)) (sessions w userId).

(** What the loop of [markAllNotificationsAsRead] leaves in the key space
    when it runs over notifications on a reachable store. *)
Definition mark_bodies (vs : list value) (m : gmap string Entry) : gmap string Entry :=
  foldl (fun m v => match v with
                    | VNotification n =>
                        <[InAppService.body_key (n_id n) :=
                            mkEntry (VNotification (InAppService.mark_read n)) None]> m
                    | _ => m
                    end) m vs.

Definition is_notification (v : value) : Prop :=
  match v with VNotification _ => True | _ => False end.

(** Whether the template of a bulk item can be processed: every variable
    name gives a pattern [RegExp] accepts. *)
Definition processable `{JsRegExp} (notif : BulkItem) : bool :=
  match InAppTemplates.processTemplate (bi_template notif)
          (default "" (p_title (default no_options (bi_options notif))))
          (default [] (bi_variables notif)) with
  | Some _ => true
  | None => false
  end.

(** The service configuration is left alone. *)
Definition same_config (w w' : World) : Prop := isConfigured w' = isConfigured w.

(** ** What the patterns denote *)

(** The words of a pattern, as the textbook defines them. *)
Inductive matches : regex -> string -> Prop :=
  | MEps : matches REps ""
  | MClass p c : p c = true -> matches (RClass p) (String c "")
  | MCat r1 r2 s1 s2 :
      matches r1 s1 -> matches r2 s2 -> matches (RCat r1 r2) (s1 +:+ s2)
  | MAltL r1 r2 s : matches r1 s -> matches (RAlt r1 r2) s
  | MAltR r1 r2 s : matches r2 s -> matches (RAlt r1 r2) s
  | MStar0 r : matches (RStar r) ""
  | MStarS r s1 s2 :
      matches r s1 -> matches (RStar r) s2 -> matches (RStar r) (s1 +:+ s2).

(** Every character of [s] satisfies [p]. *)
Fixpoint all_chars (p : ascii -> bool) (s : string) : bool :=
  match s with
  | EmptyString => true
  | String c s' => p c && all_chars p s'
  end.

(** ** Phone numbers in SmsService (services/smsService.ts) *)

(** [[\d+]] *)
Definition digit_or_plus (c : ascii) : bool := is_digit c || is_char "+" c.

(** [s.replace(/[^\d+]/g, '')] *)
Fixpoint keep_digits_plus (s : string) : string :=
  match s with
  | EmptyString => EmptyString
  | String c s' =>
      if digit_or_plus c then String c (keep_digits_plus s') else keep_digits_plus s'
  end.

(** [s.startsWith('+')] *)
Definition startsWith_plus (s : string) : bool :=
  match s with
  | String c _ => is_char "+" c
  | EmptyString => false
  end.

Definition sanitizePhoneNumber (phoneNumber : string) : string :=
  keep_digits_plus phoneNumber.

Definition validatePhoneNumber (phoneNumber : string) : bool :=
  let cleaned := keep_digits_plus phoneNumber in
  test phone_re cleaned.

Definition formatPhoneNumber (phoneNumber : string) : string :=
  let formatted := keep_digits_plus phoneNumber in
  if negb (startsWith_plus formatted) then "+1" +:+ formatted else formatted.


(** ** SmsService.sendSms (services/smsService.ts) *)

(** What [client.messages.create] is called with and resolves to, and the
    error it rejects with: Twilio's REST errors carry a numeric [code]. *)
Record CreateParams := mkCreate { c_body : string; c_from : string; c_to : string }.
Record MessageInstance := mkMessage { sid : string; m_status : string }.
Record RestException := mkRest { rest_code : option Z; rest_message : string }.

(** The fields of the service: [isConfigured], [client] and [fromNumber]. *)
Record SmsClient := mkSmsClient {
  sms_isConfigured : bool;
  sms_client : option (CreateParams -> RestException + MessageInstance);
  sms_fromNumber : string;
}.

(** What the [catch] of [sendSms] can be handed: the AppError raised in
    the [try] block, or the rejection of Twilio. *)
Inductive Thrown :=
  | ThrownAppError (message : string) (statusCode : Z) (code : string)
  | ThrownRest (e : RestException).

(** [error.code === n] for a number [n]; the code of an AppError is a string. *)
Definition code_is (error : Thrown) (n : Z) : bool :=
  match error with
  | ThrownRest e => bool_decide (rest_code e = Some n)
  | ThrownAppError _ _ _ => false
  end.

(** The [try] block of [sendSms], up to the answer of Twilio. *)
Definition sendSms_try (create : CreateParams -> RestException + MessageInstance)
    (fromNumber : string) (options : SmsOptions) : Thrown + MessageInstance :=
  let formattedNumber := formatPhoneNumber (sms_to options) in
  if (1600 <? String.length (sms_message options))%nat then
    inl (ThrownAppError "Message too long for SMS" 400 "SMS_MESSAGE_TOO_LONG")
  else
    match create (mkCreate (sms_message options)
                    (default "" (js_or (sms_from options) (Some fromNumber)))
                    formattedNumber) with
    | inl e => inl (ThrownRest e)
    | inr message => inr message
    end.

Definition sendSms (svc : SmsClient) (options : SmsOptions) : M (string * string) :=
  match sms_isConfigured svc, sms_client svc with
  | true, Some create =>
      match sendSms_try create (sms_fromNumber svc) options with
      | inr message =>
          logger LInfo "SMS sent successfully" ;;
          ret (sid message, m_status message)
      | inl err =>
          logger LError ("Failed to send SMS to " +:+ sms_to options +:+ ":") ;;
          if code_is err 21211 then
            throw (AppError "Invalid phone number" 400 "INVALID_PHONE_NUMBER")
          else if code_is err 21408 then
            throw (AppError "Permission denied for phone number" 400 "PHONE_PERMISSION_DENIED")
          else if code_is err 21610 then
            throw (AppError "Phone number is blacklisted" 400 "PHONE_BLACKLISTED")
          else if code_is err 30001 then
            throw (AppError "Message queue is full" 503 "SMS_QUEUE_FULL")
          else if code_is err 30002 then
            throw (AppError "Account suspended" 503 "SMS_ACCOUNT_SUSPENDED")
          else if code_is err 30003 then
            throw (AppError "Unreachable destination" 400 "SMS_UNREACHABLE")
          else throw (AppError "Failed to send SMS" 500 "SMS_SEND_FAILED")
      end
  | _, _ => throw (AppError "SMS service not configured" 503 "SMS_SERVICE_UNAVAILABLE")
  end.

(** * Proofs *)

(** * Keys *)

Section Keys.

Lemma has_colon_app a b : has_colon (a +:+ b) = has_colon a || has_colon b.
Proof. induction a as [|c a IH]; simpl; [done|]. by rewrite IH, orb_assoc. Qed.

Lemma pretty_N_char_no_colon x : Ascii.eqb (pretty_N_char x) ":" = false.
Proof. unfold pretty_N_char. by repeat case_match. Qed.

Lemma pretty_N_go_no_colon x s :
  has_colon s = false → has_colon (pretty_N_go x s) = false.
Proof.
  revert s. induction (N.lt_wf_0 x) as [x _ IH]; intros s Hs.
  destruct (decide (0 < x)%N) as [Hx|Hx].
  - rewrite pretty_N_go_step by done. apply IH.
    + by apply N.div_lt.
    + simpl. by rewrite pretty_N_char_no_colon, Hs.
  - replace x with 0%N by lia. by rewrite pretty_N_go_0.
Qed.

Lemma pretty_N_no_colon (x : N) : has_colon (pretty x) = false.
Proof.
  unfold pretty, pretty_N. case_decide; [done|].
  by apply pretty_N_go_no_colon.
Qed.

Lemma pretty_Z_no_colon (z : Z) : has_colon (pretty z) = false.
Proof.
  destruct z as [|p|p]; unfold pretty, pretty_Z; [done| |].
  - apply pretty_N_no_colon.
  - rewrite has_colon_app. simpl. apply pretty_N_no_colon.
Qed.

(** The text after the last colon determines the split. *)
Lemma colon_split_inj a b p q :
  has_colon p = false → has_colon q = false →
  a +:+ String ":" p = b +:+ String ":" q → a = b ∧ p = q.
Proof.
  intros Hp Hq. revert b.
  induction a as [|c a IH]; intros [|d b] Heq; cbn in Heq.
  - by simplify_eq.
  - simplify_eq. rewrite has_colon_app in Hp. simpl in Hp.
    by rewrite orb_true_r in Hp.
  - simplify_eq. rewrite has_colon_app in Hq. simpl in Hq.
    by rewrite orb_true_r in Hq.
  - simplify_eq. destruct (IH b) as [-> ->]; done.
Qed.

Lemma rate_key_inj id1 ws1 id2 ws2 :
  rate_key id1 ws1 = rate_key id2 ws2 → id1 = id2 ∧ ws1 = ws2.
Proof.
  unfold rate_key. intros Heq. cbn in Heq. simplify_eq.
  destruct (colon_split_inj id1 id2 (pretty ws1) (pretty ws2)) as [-> Hp];
    auto using pretty_Z_no_colon.
  split; [done|]. by apply (inj pretty).
Qed.

End Keys.

(** * The rate limiter on a reachable store *)

Ltac unfold_redis :=
  unfold redis_incr, redis_expire, redis_get, redis_set, redis_setex, redis_del,
    redis_put, redis_remove, round_trip, Date_now, logger in *.
Ltac unfold_m :=
  unfold try_catch, bind, ret, throw, gets, modify in *.

Section FixedWindow.

Variable rl : RedisRateLimiter.
Hypothesis window_pos : 0 < windowMs rl.

Local Abbreviation W := (windowMs rl).
Local Abbreviation L := (maxRequests rl).

Lemma ttl_covers_window : W <= Math_ceil_div W 1000 * 1000.
Proof.
  unfold Math_ceil_div.
  pose proof (Z.mul_div_le (- W) 1000 ltac:(lia)). lia.
Qed.

Lemma ttl_pos : 0 < Math_ceil_div W 1000.
Proof. pose proof ttl_covers_window. lia. Qed.

Lemma window_bounds t : windowStart rl t <= t < windowStart rl t + W.
Proof.
  unfold windowStart.
  pose proof (Z.mul_div_le t W window_pos).
  pose proof (Z.mul_succ_div_gt t W window_pos). lia.
Qed.

(** First call of a window: the counter is created with the window's TTL. *)
Lemma call_fresh t id w :
  faults w = [] →
  live (set_clock t w) (rate_key id (windowStart rl t)) = None →
  call rl (t, id) w =
    (Ok (answer rl (windowStart rl t) 1),
     set_redis (<[rate_key id (windowStart rl t) :=
                  mkEntry (VInt 1) (Some (t + Math_ceil_div W 1000 * 1000))]> (redis w))
               (set_clock t w)).
Proof.
  intros Hf Hl. pose proof ttl_pos as Httl.
  unfold call, isAllowed, CacheService.increment, CacheService.increment_try.
  unfold_redis. unfold_m.
  simpl. rewrite Hf. simpl in Hl |- *. rewrite Hl. simpl.
  unfold truthy_num. destruct (Z.eqb_spec (Math_ceil_div W 1000) 0) as [?|_]; [lia|].
  simpl. rewrite Hf. unfold live. simpl. rewrite lookup_insert_eq. simpl.
  destruct (Z.leb_spec (Math_ceil_div W 1000) 0) as [?|_]; [lia|].
  simpl. unfold answer, set_redis, set_clock. simpl.
  by rewrite insert_insert_eq.
Qed.

(** Later calls of the window only count. *)
Lemma call_counting t id w z e :
  faults w = [] →
  redis w !! rate_key id (windowStart rl t) = Some (mkEntry (VInt z) (Some e)) →
  t < e → 1 <= z →
  call rl (t, id) w =
    (Ok (answer rl (windowStart rl t) (z + 1)),
     set_redis (<[rate_key id (windowStart rl t) := mkEntry (VInt (z + 1)) (Some e)]> (redis w))
               (set_clock t w)).
Proof.
  intros Hf Hk Hte Hz.
  unfold call, isAllowed, CacheService.increment, CacheService.increment_try.
  unfold_redis. unfold_m.
  simpl. rewrite Hf. unfold live. simpl. rewrite Hk. unfold expired. simpl.
  destruct (Z.leb_spec e t) as [?|_]; [lia|]. simpl.
  destruct (Z.eqb_spec (z + 1) 1) as [?|_]; [lia|].
  by rewrite andb_false_r.
Qed.

(** A call touches no key but its own, and a reachable store stays so. *)
Lemma call_frame t id w :
  faults w = [] →
  faults (call rl (t, id) w).2 = [] ∧
  ∀ k, k ≠ rate_key id (windowStart rl t) →
       redis (call rl (t, id) w).2 !! k = redis w !! k.
Proof.
  intros Hf.
  unfold call, isAllowed, CacheService.increment, CacheService.increment_try.
  unfold_redis. unfold_m.
  simpl. rewrite Hf.
  destruct (live _ _) as [[[n|l|z] exp]|]; simpl; try done.
  all: repeat (match goal with
               | |- context [if ?b then _ else _] => destruct b eqn:?
               | |- context [match live ?w ?k with _ => _ end] =>
                   destruct (live w k) as [[? ?]|] eqn:?
               end; simpl; rewrite ?Hf; simpl).
  all: split; [done|]; intros k Hk; apply not_eq_sym in Hk;
    repeat first [rewrite lookup_insert_ne by done | rewrite lookup_delete_ne by done];
    done.
Qed.

End FixedWindow.

Lemma count_nonneg {A} (p : A -> bool) l : 0 <= count p l.
Proof. induction l as [|x l IH]; simpl; [lia|]. destruct (p x); lia. Qed.

Lemma count_app {A} (p : A -> bool) l1 l2 : count p (l1 ++ l2) = count p l1 + count p l2.
Proof. induction l1 as [|x l1 IH]; simpl; [lia|]. rewrite IH. lia. Qed.

Lemma count_le_cover {A} (p p1 p2 p3 : A -> bool) l :
  (∀ x, p x = true → p1 x || p2 x || p3 x = true) →
  count p l <= count p1 l + count p2 l + count p3 l.
Proof.
  intros Hc. induction l as [|x l IH]; simpl; [lia|].
  specialize (Hc x). destruct (p x), (p1 x), (p2 x), (p3 x); simpl in Hc;
    try lia; by specialize (Hc eq_refl).
Qed.



Section WindowInvariant.

Variable rl : RedisRateLimiter.
Hypothesis window_pos : 0 < windowMs rl.
Variable id : string.
Variable ws : Z.

Lemma call_in_window c t w :
0 <= c → counter_is rl id ws c w → windowStart rl t = ws →
(call rl (t, id) w).1 = Ok (answer rl ws (c + 1))
∧ counter_is rl id ws (c + 1) (call rl (t, id) w).2.
Proof.
intros Hc [Hf Hk] Hws. pose proof (window_bounds rl window_pos t) as Hb.
pose proof (ttl_covers_window rl) as Httl.
unfold counter_is. destruct (Z.eqb_spec (c + 1) 0) as [?|_]; [lia|].
destruct (Z.eqb_spec c 0) as [->|Hc0].
- rewrite call_fresh; [|done..|].
  + simpl. rewrite Hws. split_and!; [done..|].
    eexists. rewrite lookup_insert_eq. split; [done|]. lia.
  + unfold live. simpl. by rewrite Hws, Hk.
- destruct Hk as (e & Hk & He).
  rewrite (call_counting rl t id w c e); [|done|by rewrite Hws|lia..].
  simpl. rewrite Hws. split_and!; [done..|].
  eexists. by rewrite lookup_insert_eq.
Qed.

Lemma call_elsewhere c t id' w :
counter_is rl id ws c w → hits rl id ws (t, id') = false →
counter_is rl id ws c (call rl (t, id') w).2.
Proof.
intros [Hf Hk] Hh. destruct (call_frame rl t id' w Hf) as [Hf' Hfr].
split; [done|]. rewrite Hfr; [done|].
intros Heq. apply rate_key_inj in Heq as [-> Hw].
unfold hits in Hh. simpl in Hh.
rewrite bool_decide_eq_true_2 in Hh by done.
simpl in Hh. apply Z.eqb_neq in Hh. congruence.
Qed.

(** Running a request stream: the counter advances by the number of hits,
  and the hits let through are those numbered up to the limit. *)
Lemma run_window calls : ∀ c w,
0 <= c → counter_is rl id ws c w →
counter_is rl id ws (c + count (hits rl id ws) calls) (run rl calls w).2
∧ allowed_in_window rl id ws calls w
  = Z.max 0 (Z.min (c + count (hits rl id ws) calls) (maxRequests rl) - c).
Proof.
unfold allowed_in_window.
induction calls as [|[t id'] calls IH]; intros c w Hc Hinv; simpl.
- rewrite Z.add_0_r. split; [done|]. lia.
- destruct (call rl (t, id') w) as [r w1] eqn:Hcall.
  destruct (run rl calls w1) as [rs w2] eqn:Hrun. simpl.
  pose proof (count_nonneg (hits rl id ws) calls) as Hn.
  destruct (hits rl id ws (t, id')) eqn:Hh.
  + unfold hits in Hh. simpl in Hh. apply andb_true_iff in Hh as [Hid Hw].
    apply bool_decide_eq_true in Hid as ->. apply Z.eqb_eq in Hw.
    destruct (call_in_window c t w Hc Hinv Hw) as [Hr Hinv'].
    rewrite Hcall in Hr, Hinv'. simpl in Hr, Hinv'. subst r.
    destruct (IH (c + 1) w1 ltac:(lia) Hinv') as [IH1 IH2].
    rewrite Hrun in IH1, IH2. simpl in IH1, IH2.
    split. { by replace (c + (1 + count (hits rl id ws) calls))
               with (c + 1 + count (hits rl id ws) calls) by lia. }
    rewrite IH2. simpl. destruct (Z.leb_spec (c + 1) (maxRequests rl)); lia.
  + pose proof (call_elsewhere c t id' w Hinv Hh) as Hinv'.
    rewrite Hcall in Hinv'. simpl in Hinv'.
    destruct (IH c w1 Hc Hinv') as [IH1 IH2].
    rewrite Hrun in IH1, IH2. simpl in IH1, IH2.
    rewrite Z.add_0_l. split; [done|]. by rewrite IH2.
Qed.

End WindowInvariant.

(** * Rate limiter: the claims *)

(** One request per 10 ms window: the second request of a window is refused,
    the first of the next window is let through again. *)
Example run_one_per_window :
  (run (mkLimiter 10 1) [(9, "u"); (10, "u"); (20, "u"); (21, "u")] empty_world).1
  = [Ok (mkRate true 0 10); Ok (mkRate true 0 20); Ok (mkRate true 0 30);
     Ok (mkRate false 0 30)].
Proof. vm_compute. reflexivity. Qed.

(** With [windowMs = 1500] the counter lives ceil(1.5) = 2 seconds, past the
    end of its window. *)
Example run_ttl_rounds_up :
  let r := run (mkLimiter 1500 2) [(0, "u"); (1400, "u"); (1499, "u")] empty_world in
  r.1 = [Ok (mkRate true 1 1500); Ok (mkRate true 0 1500); Ok (mkRate false 0 1500)]
  ∧ redis r.2 !! rate_key "u" 0 = Some (mkEntry (VInt 3) (Some 2000)).
Proof. vm_compute. split; reflexivity. Qed.

(** The key names the identifier and the window start, not the limiter:
    a limiter with the window of [authRateLimiter] advances its counter. *)
Example instances_share_counter :
  let w1 := (call (mkLimiter 900000 100) (5, "10.0.0.7") empty_world).2 in
  (call authRateLimiter (6, "10.0.0.7") w1).1 = Ok (mkRate true 3 900000).
Proof. vm_compute. reflexivity. Qed.

(** An unreachable store: the increment reads as 0. *)
Example run_store_down :
  (isAllowed authRateLimiter "u" (set_faults [true] empty_world)).1
  = Ok (mkRate true 5 900000).
Proof. vm_compute. reflexivity. Qed.

Lemma span_windows (W s len t : Z) :
  0 < W → 0 <= len → s <= t < s + len * W →
  s / W <= t / W <= s / W + len.
Proof.
  intros HW Hlen [H1 H2]. split.
  - by apply Z.div_le_mono.
  - replace (s / W + len) with ((s + len * W) / W) by (rewrite Z.div_add; lia).
    apply Z.div_le_mono; lia.
Qed.

Lemma allowed_in_window_le rl id ws calls w0 :
  0 < windowMs rl → 0 <= maxRequests rl →
  faults w0 = [] → redis w0 !! rate_key id ws = None →
  allowed_in_window rl id ws calls w0
  = Z.min (count (hits rl id ws) calls) (maxRequests rl).
Proof.
  intros HW HL Hf Hk.
  destruct (run_window rl HW id ws calls 0 w0) as [_ ->]; [lia|by split|].
  pose proof (count_nonneg (hits rl id ws) calls). lia.
Qed.






(** C7, as stated, fails: three calls at 9 ms, 10 ms and 20 ms with
    windowMs = 10 and maxRequests = 1 fall in three different aligned windows
    and in the span [9, 29) of length 2 * windowMs; all three are allowed. *)
Lemma sliding_span_2L_counterexample :
  let rl := mkLimiter 10 1 in
  let calls := [(9, "u"); (10, "u"); (20, "u")] in
  0 < windowMs rl ∧ 0 <= maxRequests rl ∧ faults empty_world = []
  ∧ (∀ ws, redis empty_world !! rate_key "u" ws = None)
  ∧ allowed_in_span rl "u" 9 (2 * windowMs rl) calls empty_world = 3
  ∧ ¬ (allowed_in_span rl "u" 9 (2 * windowMs rl) calls empty_world
       <= 2 * maxRequests rl).
Proof.
  simpl. split_and!; try done.
  vm_compute. intros H. by apply H.
Qed.

Lemma allowed_in_span_cover rl id s len (qs : Z * Z * Z) calls w0 :
  (∀ t, s <= t < s + len →
        windowStart rl t = qs.1.1 ∨ windowStart rl t = qs.1.2 ∨ windowStart rl t = qs.2) →
  allowed_in_span rl id s len calls w0 <=
    allowed_in_window rl id qs.1.1 calls w0
    + allowed_in_window rl id qs.1.2 calls w0
    + allowed_in_window rl id qs.2 calls w0.
Proof.
  intros Hcov. unfold allowed_in_span, allowed_in_window.
  apply count_le_cover. intros [[t id'] r]. simpl. unfold hits. simpl.
  intros H. repeat (apply andb_true_iff in H as [H ?]).
  rewrite H. simpl. rewrite H0. simpl. rewrite !andb_true_r.
  destruct (Hcov t) as [Hw|[Hw|Hw]]; [lia|..]; rewrite Hw, Z.eqb_refl;
    by rewrite ?orb_true_r.
Qed.

(** C7 (amended). With a reachable store, the calls let through for one
    identifier number at most 3 * maxRequests in any span of length
    2 * windowMs, and at most 2 * maxRequests in any span of length windowMs. *)
Theorem sliding_span_bound rl id w0 calls s :
  0 < windowMs rl → 0 <= maxRequests rl →
  faults w0 = [] → (∀ ws, redis w0 !! rate_key id ws = None) →
  allowed_in_span rl id s (2 * windowMs rl) calls w0 <= 3 * maxRequests rl
  ∧ allowed_in_span rl id s (windowMs rl) calls w0 <= 2 * maxRequests rl.
Proof.
  intros HW HL Hf Hk.
  assert (Hwin : ∀ ws, allowed_in_window rl id ws calls w0 <= maxRequests rl).
  { intros ws. rewrite allowed_in_window_le by done. lia. }
  set (q := s / windowMs rl).
  split.
  - pose proof (allowed_in_span_cover rl id s (2 * windowMs rl)
                  (q * windowMs rl, (q + 1) * windowMs rl, (q + 2) * windowMs rl)
                  calls w0) as Hc.
    simpl in Hc.
    pose proof (Hwin (q * windowMs rl)) as Hw0.
    pose proof (Hwin ((q + 1) * windowMs rl)) as Hw1.
    pose proof (Hwin ((q + 2) * windowMs rl)) as Hw2.
    enough (allowed_in_span rl id s (2 * windowMs rl) calls w0 <=
            allowed_in_window rl id (q * windowMs rl) calls w0
            + allowed_in_window rl id ((q + 1) * windowMs rl) calls w0
            + allowed_in_window rl id ((q + 2) * windowMs rl) calls w0) by lia.
    apply Hc. intros t Ht.
    pose proof (span_windows (windowMs rl) s 2 t HW ltac:(lia) Ht) as Hq.
    unfold windowStart. fold q in Hq.
    assert (t / windowMs rl = q ∨ t / windowMs rl = q + 1 ∨ t / windowMs rl = q + 2)
      as [->| [->| ->]] by lia; auto.
  - pose proof (Hwin (q * windowMs rl)) as Hw0.
    pose proof (Hwin ((q + 1) * windowMs rl)) as Hw1.
    assert (Hsharp : allowed_in_span rl id s (windowMs rl) calls w0 <=
            allowed_in_window rl id (q * windowMs rl) calls w0
            + allowed_in_window rl id ((q + 1) * windowMs rl) calls w0).
    { unfold allowed_in_span, allowed_in_window.
      etrans; [apply (count_le_cover _
                 (fun cr => hits rl id (q * windowMs rl) cr.1 && is_allowed cr.2)
                 (fun cr => hits rl id ((q + 1) * windowMs rl) cr.1 && is_allowed cr.2)
                 (fun _ => false))|].
      - intros [[t id'] r]. simpl. unfold hits. simpl.
        intros H. repeat (apply andb_true_iff in H as [H ?]).
        rewrite H. simpl. rewrite H0. simpl. rewrite !andb_true_r, orb_false_r.
        pose proof (span_windows (windowMs rl) s 1 t HW ltac:(lia) ltac:(lia)) as Hq.
        unfold windowStart. fold q in Hq.
        assert (t / windowMs rl = q ∨ t / windowMs rl = q + 1) as [->| ->] by lia;
          rewrite Z.eqb_refl; by rewrite ?orb_true_r.
      - assert (Hz : ∀ l : list (Z * string * Outcome RateResult),
                   count (fun _ => false) l = 0).
        { induction l as [|x l IHl]; simpl; [done|]. by rewrite IHl. }
        rewrite Hz. lia. }
    lia.
Qed.

Lemma sliding_span_bound_witness :
  allowed_in_span (mkLimiter 10 1) "u" 9 (2 * 10) [(9, "u"); (10, "u"); (20, "u")] empty_world
    <= 3 * 1
  ∧ allowed_in_span (mkLimiter 10 1) "u" 9 10 [(9, "u"); (10, "u"); (20, "u")] empty_world
    <= 2 * 1.
Proof.
  apply (sliding_span_bound (mkLimiter 10 1) "u" empty_world
           [(9, "u"); (10, "u"); (20, "u")] 9).
  - reflexivity.
  - vm_compute. discriminate.
  - reflexivity.
  - intros ws. apply lookup_empty.
Defined.

(** * Request validation: the claim *)

Lemma to_custom_rejects c v :
  c = "EMAIL" ∨ c = "SMS" →
  validateRecipientFormat c (js_String v) = false →
  is_Some (to_custom v (JStr c)).
Proof.
  unfold validateRecipientFormat, to_custom.
  intros [-> | ->] Hbad; simpl in *.
  - rewrite Hbad. by eexists.
  - destruct v; try by eexists.
    simpl in Hbad. rewrite Hbad. by eexists.
Qed.

(** C8. A notification request whose recipient fails the format of its
    channel (EMAIL: the e-mail pattern; SMS: the phone pattern) is answered
    400 VALIDATION_ERROR by the validation middleware, and the route handler
    behind it (where a job would be enqueued) is not run. *)
Theorem invalid_recipient_rejected `{ValidatorJs} {Handled : Type}
    (handler : ReqBody -> Handled)
    (now : Z) (body : ReqBody) (c : string) :
  b_channel body = JStr c →
  c = "EMAIL" ∨ c = "SMS" →
  validateRecipientFormat c (js_String (b_to body)) = false →
  ∃ details,
    notification_route handler now body
      = inl (mkResponse 400 false "Validation failed" "VALIDATION_ERROR" details)
    ∧ ∃ msg, mkFieldError "to" msg (b_to body) ∈ details.
Proof.
  intros Hc Hch Hbad.
  destruct (to_custom_rejects c (b_to body) Hch Hbad) as [msg Hmsg].
  assert (Hin : mkFieldError "to" msg (b_to body) ∈ validationResult now body).
  { unfold validationResult, validate_to. rewrite Hc, Hmsg.
    apply elem_of_app. left. apply elem_of_app. right. by apply list_elem_of_singleton. }
  unfold notification_route, handleValidationErrors.
  destruct (validationResult now body) as [|e es] eqn:Hres.
  - by apply elem_of_nil in Hin.
  - eexists. split; [done|]. by exists msg.
Qed.

Lemma invalid_recipient_rejected_witness :
  ∃ details,
    @notification_route (Build_ValidatorJs (fun _ => true) (fun _ => None)) bool
        (fun _ => true) 0
        (mkBody (JStr "alice@example") (JStr "EMAIL") JUndefined (JStr "hello")
                JUndefined JUndefined JUndefined)
      = inl (mkResponse 400 false "Validation failed" "VALIDATION_ERROR" details)
    ∧ ∃ msg, mkFieldError "to" msg (JStr "alice@example") ∈ details.
Proof.
  apply (@invalid_recipient_rejected (Build_ValidatorJs (fun _ => true) (fun _ => None))
           bool (fun _ => true) 0
           (mkBody (JStr "alice@example") (JStr "EMAIL") JUndefined (JStr "hello")
                   JUndefined JUndefined JUndefined) "EMAIL").
  - reflexivity.
  - left. reflexivity.
  - vm_compute. reflexivity.
Defined.

(** * In-app delivery and mailbox *)

Import InAppService.

Lemma body_key_inj id1 id2 : body_key id1 = body_key id2 → id1 = id2.
Proof. unfold body_key. intros Heq. cbn in Heq. by simplify_eq. Qed.

Lemma mailbox_key_ne_body_key userId id : mailbox_key userId ≠ body_key id.
Proof. unfold mailbox_key, body_key. intros Heq. cbn in Heq. by simplify_eq. Qed.

(** C4. deliverNotification returns true exactly when the recipient has a
    live session (a socket in the recipient's room); it then pushes the
    notification to every one of those sessions, and otherwise pushes
    nothing and leaves the world as it was. *)
Theorem deliverNotification_live n w :
  ∃ b w',
    deliverNotification n w = (Ok b, w')
    ∧ (b = true ↔ sessions w (n_to n) ≠ [])
    ∧ packets w' = (packets w
                    ++ map (fun s => (s, EvNotification n)) (sessions w (n_to n)))%list
    ∧ (b = false → w' = w)
    ∧ redis w' = redis w
    ∧ ∀ u, sessions w' u = sessions w u.
Proof.
  unfold deliverNotification, sessions, packets, io_emit. unfold_m.
  destruct (io w) as [srv|] eqn:Hio; simpl.
  - destruct (room_sockets srv (user_room (n_to n))) as [|s ss] eqn:Hroom; simpl.
    + eexists _, _. split; [done|]. rewrite Hio, app_nil_r. by split_and!.
    + eexists _, _. split; [done|]. simpl. rewrite Hio. simpl. rewrite Hroom.
      by split_and!.
  - eexists _, _. split; [done|]. rewrite Hio. by split_and!.
Qed.

Example deliverNotification_two_sessions :
  let srv := mkServer {[ "user:bob" := [1; 2]%nat ]} [] in
  let w := mkWorld 1000 ∅ [] [] (Some srv) true in
  let n := mkNotification "n1" "bob" None "hi" (Some info) None "t" (Some false) in
  (deliverNotification n w).1 = Ok true
  ∧ packets (deliverNotification n w).2 = [(1%nat, EvNotification n); (2%nat, EvNotification n)]
  ∧ (deliverNotification (mark_read n) (set_io (Some (mkServer ∅ [])) w)).1 = Ok false.
Proof. vm_compute. by split_and!. Qed.

(** ** The cache on a reachable store *)

Lemma cache_get_ok k w :
  faults w = [] → CacheService.get k w = (Ok (e_val <$> live w k), w).
Proof.
  intros Hf. unfold CacheService.get. unfold_redis. unfold_m. by rewrite Hf.
Qed.

Lemma cache_set_ok k v ttl w :
  faults w = [] → 0 < ttl →
  CacheService.set k v (Some ttl) w
  = (Ok true, set_redis (<[k := mkEntry v (Some (clock w + ttl * 1000))]> (redis w)) w).
Proof.
  intros Hf Httl. unfold CacheService.set, truthy_num. unfold_redis. unfold_m.
  destruct (Z.eqb_spec ttl 0) as [?|_]; [lia|]. simpl. rewrite Hf.
  destruct (Z.leb_spec ttl 0) as [?|_]; [lia|]. done.
Qed.

Lemma cache_del_ok k w :
  faults w = [] →
  CacheService.del k w = (Ok true, set_redis (delete k (redis w)) w).
Proof.
  intros Hf. unfold CacheService.del. unfold_redis. unfold_m. by rewrite Hf.
Qed.

(** C10. When the notification stored under the id belongs to another
    recipient, markNotificationAsRead and deleteNotification change no key
    of the store and push no packet. *)
Theorem foreign_notification_untouched notificationId userId n w :
  stored_body w notificationId = Some (VNotification n) →
  n_to n ≠ userId →
  redis (markNotificationAsRead notificationId userId w).2 = redis w
  ∧ io (markNotificationAsRead notificationId userId w).2 = io w
  ∧ redis (deleteNotification notificationId userId w).2 = redis w
  ∧ io (deleteNotification notificationId userId w).2 = io w.
Proof.
  unfold stored_body. intros Hbody Hto.
  unfold markNotificationAsRead, deleteNotification, CacheService.get.
  unfold_redis. unfold_m.
  destruct (faults w) as [|[|] fs]; simpl; try done.
  all: rewrite ?Hbody; simpl;
    try (change (live (set_faults fs w) (body_key notificationId))
           with (live w (body_key notificationId));
         rewrite Hbody; simpl);
    rewrite bool_decide_eq_false_2 by done; done.
Qed.

Lemma foreign_notification_untouched_witness :
  let n := mkNotification "n1" "amy" None "hi" (Some info) None "t" (Some false) in
  let w := mkWorld 5 {[ "notification:n1" := mkEntry (VNotification n) None;
                        "notifications:amy" := mkEntry (VIds ["n1"]) None ]}
                   [] [] (Some (mkServer {[ "user:bob" := [3%nat] ]} [])) true in
  redis (markNotificationAsRead "n1" "bob" w).2 = redis w
  ∧ io (markNotificationAsRead "n1" "bob" w).2 = io w
  ∧ redis (deleteNotification "n1" "bob" w).2 = redis w
  ∧ io (deleteNotification "n1" "bob" w).2 = io w.
Proof.
  intros n w. apply (foreign_notification_untouched "n1" "bob" n w).
  - vm_compute. reflexivity.
  - vm_compute. discriminate.
Defined.

(** ** Eviction *)

Lemma for_of_del_ok ids w :
  faults w = [] →
  for_of ids (fun id => CacheService.del (body_key id) ;; ret tt) w
  = (Ok tt, set_redis (delete_bodies ids (redis w)) w).
Proof.
  revert w. induction ids as [|id ids IH]; intros w Hf; simpl.
  - by destruct w.
  - unfold bind at 1. unfold bind at 1. rewrite cache_del_ok by done.
    unfold ret at 1. rewrite IH by done. done.
Qed.

Lemma delete_bodies_other ids m k :
  (∀ id, id ∈ ids → k ≠ body_key id) → delete_bodies ids m !! k = m !! k.
Proof.
  revert m. induction ids as [|id ids IH]; intros m Hk; simpl; [done|].
  rewrite IH by (intros id' ?; apply Hk; by right).
  apply lookup_delete_ne. apply not_eq_sym, Hk. by left.
Qed.

Lemma delete_bodies_gone ids m id :
  id ∈ ids → delete_bodies ids m !! body_key id = None.
Proof.
  revert m. induction ids as [|id' ids IH]; intros m Hin; simpl.
  - by apply elem_of_nil in Hin.
  - destruct (decide (id ∈ ids)) as [Hin'|Hnin]; [by apply IH|].
    apply elem_of_cons in Hin as [->|?]; [|done].
    rewrite delete_bodies_other.
    + apply lookup_delete_eq.
    + intros id'' Hin'' Heq. apply body_key_inj in Heq. by subst.
Qed.

Lemma live_set_redis_ne k k' e w :
  k ≠ k' → live (set_redis (<[k := e]> (redis w)) w) k' = live w k'.
Proof. intros Hne. unfold live. simpl. by rewrite lookup_insert_ne. Qed.

Lemma live_insert_ne k k' e m w :
  k ≠ k' → live (set_redis (<[k := e]> m) w) k' = live (set_redis m w) k'.
Proof. intros Hne. unfold live. simpl. by rewrite lookup_insert_ne. Qed.

Lemma live_insert_eq k v t m w :
  clock w < t →
  live (set_redis (<[k := mkEntry v (Some t)]> m) w) k = Some (mkEntry v (Some t)).
Proof.
  intros Ht. unfold live, expired. simpl. rewrite lookup_insert_eq. simpl.
  destruct (Z.leb_spec t (clock w)); [lia|done].
Qed.

Lemma live_ext w1 w2 k :
  clock w1 = clock w2 → redis w1 = redis w2 → live w1 k = live w2 k.
Proof. unfold live. by intros -> ->. Qed.

Lemma stored_redis_frame n ttl old w1 w2 :
  clock w1 = clock w2 → redis w1 = redis w2 →
  stored_redis n ttl old w1 = stored_redis n ttl old w2.
Proof. unfold stored_redis. by intros -> ->. Qed.

Lemma storeNotification_ok n ttl w :
  faults w = [] → 0 < ttl_or_default ttl → mailbox_typed w (n_to n) →
  storeNotification n ttl w
  = (Ok true,
     set_redis (stored_redis n (ttl_or_default ttl) (mailbox w (n_to n)) w) w).
Proof.
  intros Hf Httl Hty. unfold storeNotification, stored_redis.
  unfold try_catch at 1. unfold bind at 1.
  rewrite cache_set_ok by done.
  unfold bind at 1. rewrite cache_get_ok by done.
  rewrite live_set_redis_ne by (apply not_eq_sym, mailbox_key_ne_body_key).
  unfold mailbox_typed in Hty. unfold mailbox.
  set (old := match live w (mailbox_key (n_to n)) with
              | Some {| e_val := VIds l |} => l
              | _ => []
              end).
  assert (Harr : ∀ w', as_id_array (e_val <$> live w (mailbox_key (n_to n))) w'
                       = (Ok old, w')).
  { intros w'. subst old. by destruct (live w (mailbox_key (n_to n))) as [[[?|?|?] ?]|]. }
  unfold bind at 1. rewrite Harr.
  destruct (100 <? length (n_id n :: old))%nat eqn:Hlen.
  - unfold bind at 1. unfold bind at 1. rewrite for_of_del_ok by done.
    unfold ret at 1. unfold bind at 1. rewrite cache_set_ok by done.
    unfold ret. simpl. done.
  - apply Nat.ltb_ge in Hlen.
    rewrite (take_ge (n_id n :: old)) by done.
    rewrite (drop_ge (n_id n :: old)) by done.
    unfold bind at 1. unfold ret at 1. unfold bind at 1.
    rewrite cache_set_ok by done. unfold ret. simpl. done.
Qed.


(** ** Sending *)

Lemma deliverNotification_eq n w :
  deliverNotification n w
  = (Ok (bool_decide (sessions w (n_to n) ≠ [])), delivered_world n w).
Proof.
  unfold deliverNotification, delivered_world, sessions, io_emit. unfold_m.
  destruct (io w) as [srv|] eqn:Hio; simpl; [|done].
  destruct (room_sockets srv (user_room (n_to n))) as [|s ss] eqn:Hroom; simpl; [done|].
  by rewrite Hio.
Qed.

Lemma delivered_world_frame n w :
  faults (delivered_world n w) = faults w
  ∧ redis (delivered_world n w) = redis w
  ∧ clock (delivered_world n w) = clock w
  ∧ (∀ k, live (delivered_world n w) k = live w k)
  ∧ (∀ u, mailbox (delivered_world n w) u = mailbox w u)
  ∧ (mailbox_typed (delivered_world n w) (n_to n) ↔ mailbox_typed w (n_to n)).
Proof. unfold delivered_world. by case_bool_decide. Qed.

(** [sendNotification] once configured: push, then store if asked to or if
    nobody was reached. *)
Lemma sendNotification_eq en options w :
  isConfigured w = true →
  let n := mkNotification ("notif_" +:+ pretty (clock w) +:+ "_" +:+ rnd en)
             (o_to options) (o_title options) (o_message options)
             (Some (default info (o_type options))) (o_data options) (iso en) (Some false) in
  sendNotification en options w
  = match deliverNotification n w with
    | (Ok delivered, w1) =>
        if default false (o_persistent options) || negb delivered then
          match storeNotification n (o_ttl options) w1 with
          | (Ok stored, w2) =>
              (Ok (delivered, stored), add_log (LInfo, "In-app notification processed") w2)
          | (Throw _, w2) =>
              (Throw (AppError "Failed to send in-app notification" 500 "INAPP_SEND_FAILED"),
               add_log (LError, "Failed to send in-app notification to "
                                  +:+ o_to options +:+ ":") w2)
          end
        else (Ok (delivered, false), add_log (LInfo, "In-app notification processed") w1)
    | (Throw _, w1) =>
        (Throw (AppError "Failed to send in-app notification" 500 "INAPP_SEND_FAILED"),
         add_log (LError, "Failed to send in-app notification to "
                            +:+ o_to options +:+ ":") w1)
    end.
Proof.
  intros Hc n. unfold sendNotification, generateNotificationId.
  unfold Date_now, logger. unfold_m. rewrite Hc. simpl. fold n.
  destruct (deliverNotification n w) as [[delivered|e] w1]; [|done].
  destruct (default false (o_persistent options) || negb delivered); [|done].
  by destruct (storeNotification n (o_ttl options) w1) as [[stored|e] w2].
Qed.

(** C5, as stated, fails on the TTL: with options.ttl = 0 the entry is
    stored for 86400 seconds, not for 0. *)
Lemma sendNotification_ttl_zero_counterexample :
  let w := mkWorld 1000 ∅ [] [] (Some (mkServer ∅ [])) true in
  let options := mkOptions "amy" None "hello" None None None (Some 0) in
  let r := sendNotification (mkEntropy "k3x9" "2024-01-01T00:00:00.000Z") options w in
  o_ttl options = Some 0
  ∧ r.1 = Ok (false, true)
  ∧ e_exp <$> redis r.2 !! body_key "notif_1000_k3x9" = Some (Some (1000 + 86400 * 1000))
  ∧ e_exp <$> redis r.2 !! body_key "notif_1000_k3x9" ≠ Some (Some (1000 + 0 * 1000)).
Proof. vm_compute. by split_and!. Qed.

(** C5 (amended). sendNotification first attempts the live push; the
    notification is written to the recipient's mailbox exactly when
    options.persistent is set or the push reached no session; the entry and
    the mailbox list are then stored with a TTL of options.ttl seconds when
    that is given and not zero, and of 86400 seconds otherwise.  When
    nothing is to be written the key space is left as it was. *)
Theorem sendNotification_store_policy en options w :
  isConfigured w = true → faults w = [] → mailbox_typed w (o_to options) →
  0 < ttl_or_default (o_ttl options) →
  let id := "notif_" +:+ pretty (clock w) +:+ "_" +:+ rnd en in
  let n := mkNotification id (o_to options) (o_title options) (o_message options)
             (Some (default info (o_type options))) (o_data options) (iso en) (Some false) in
  let delivered := bool_decide (sessions w (o_to options) ≠ []) in
  let written := default false (o_persistent options) || negb delivered in
  let ttl := match o_ttl options with
             | Some t => if t =? 0 then 86400 else t
             | None => 86400
             end in
  ∃ w1 w',
    deliverNotification n w = (Ok delivered, w1)
    ∧ sendNotification en options w = (Ok (delivered, written), w')
    ∧ packets w' = packets w1
    ∧ if written then
        redis w' = stored_redis n ttl (mailbox w (o_to options)) w
        ∧ live w' (mailbox_key (o_to options))
          = Some (mkEntry (VIds (take 100 (id :: mailbox w (o_to options))))
                          (Some (clock w + ttl * 1000)))
        ∧ (id ∉ mailbox w (o_to options) →
           live w' (body_key id)
           = Some (mkEntry (VNotification n) (Some (clock w + ttl * 1000))))
      else redis w' = redis w.
Proof.
  intros Hc Hf Hty Httl id n delivered written ttl.
  change ttl with (ttl_or_default (o_ttl options)).
  destruct (delivered_world_frame n w) as (Hf1 & Hr1 & Hc1 & Hl1 & Hm1 & Hty1).
  exists (delivered_world n w).
  rewrite (sendNotification_eq en options w Hc). fold id. fold n.
  rewrite deliverNotification_eq.
  change (bool_decide (sessions w (n_to n) ≠ [])) with delivered.
  change (default false (o_persistent options) || negb delivered) with written.
  destruct written eqn:Hw.
  - rewrite storeNotification_ok; [|by rewrite Hf1|done|by apply Hty1].
    eexists. do 3 (split; [done|]).
    change (n_to n) with (o_to options). rewrite Hm1.
    rewrite (stored_redis_frame _ _ _ (delivered_world n w) w) by done.
    set (m := stored_redis n (ttl_or_default (o_ttl options)) (mailbox w (o_to options)) w).
    assert (Hlive : ∀ k,
      live (add_log (LInfo, "In-app notification processed")
              (set_redis m (delivered_world n w))) k = live (set_redis m w) k).
    { intros k. by apply live_ext. }
    rewrite !Hlive. subst m. split_and!.
    + done.
    + unfold stored_redis. rewrite live_insert_eq by lia. done.
    + intros Hfresh. unfold stored_redis.
      rewrite live_insert_ne by apply mailbox_key_ne_body_key.
      unfold live, expired. simpl. rewrite delete_bodies_other.
      * rewrite lookup_insert_eq. simpl.
        destruct (Z.leb_spec (clock w + ttl_or_default (o_ttl options) * 1000)
                    (clock w)); [lia|done].
      * intros id' Hin Heq. apply body_key_inj in Heq. subst id'.
        apply Hfresh. by apply (subseteq_drop 99 (mailbox w (o_to options))).
  - eexists. do 3 (split; [done|]). simpl. done.
Qed.


Lemma sendNotification_store_policy_witness :
  let w := send_many "amy" 3 offline_world in
  let en := mkEntropy "k3x9" "2024-01-01T00:00:00.000Z" in
  let options := mkOptions "amy" (Some "Title") "hello" None None (Some true) (Some 60) in
  let id := "notif_" +:+ pretty (clock w) +:+ "_" +:+ rnd en in
  let n := mkNotification id (o_to options) (o_title options) (o_message options)
             (Some (default info (o_type options))) (o_data options) (iso en) (Some false) in
  let delivered := bool_decide (sessions w (o_to options) ≠ []) in
  let written := default false (o_persistent options) || negb delivered in
  let ttl := match o_ttl options with
             | Some t => if t =? 0 then 86400 else t
             | None => 86400
             end in
  ∃ w1 w',
    deliverNotification n w = (Ok delivered, w1)
    ∧ sendNotification en options w = (Ok (delivered, written), w')
    ∧ packets w' = packets w1
    ∧ if written then
        redis w' = stored_redis n ttl (mailbox w (o_to options)) w
        ∧ live w' (mailbox_key (o_to options))
          = Some (mkEntry (VIds (take 100 (id :: mailbox w (o_to options))))
                          (Some (clock w + ttl * 1000)))
        ∧ (id ∉ mailbox w (o_to options) →
           live w' (body_key id)
           = Some (mkEntry (VNotification n) (Some (clock w + ttl * 1000))))
      else redis w' = redis w.
Proof.
  intros w en options.
  apply (sendNotification_store_policy en options w).
  - vm_compute. reflexivity.
  - vm_compute. reflexivity.
  - vm_compute. exact I.
  - vm_compute. reflexivity.
Defined.

(** ** Reconnect *)

Lemma collect_unread ids : ∀ acc w,
  faults w = [] →
  collect false ids acc w = (Ok (acc ++ unread_of w ids)%list, w).
Proof.
  induction ids as [|id ids IH]; intros acc w Hf; simpl.
  - unfold ret. by rewrite app_nil_r.
  - unfold bind. rewrite cache_get_ok by done. unfold unread_of. simpl.
    fold (unread_of w ids). unfold stored_body.
    destruct (e_val <$> live w (body_key id)) as [v|]; simpl; [|by apply IH].
    destruct (truthy v && negb (field_read v)); simpl; [|by apply IH].
    rewrite IH by done. by rewrite <- app_assoc.
Qed.

Lemma getUserNotifications_unread userId w :
  faults w = [] → mailbox_typed w userId →
  getUserNotifications userId false 50 w
  = (Ok (unread_of w (take 50 (mailbox w userId))), w).
Proof.
  intros Hf Hty. unfold getUserNotifications, mailbox_typed, mailbox in *.
  unfold try_catch, bind. rewrite cache_get_ok by done.
  destruct (live w (mailbox_key userId)) as [[[?|l|?] ?]|]; simpl; try done.
  unfold ret at 1. by rewrite collect_unread.
Qed.

(** C6, as stated, fails: with 51 unread entries in the mailbox the push on
    join carries only the 50 most recent ones; the oldest unread entry stays
    in the mailbox and is not sent. *)
Lemma join_flush_counterexample :
  let w := send_many "amy" 51 offline_world in
  let w' := (on_join 7%nat "amy" w).2 in
  length (unread_of w (mailbox w "amy")) = 51%nat
  ∧ ∃ pushed,
      packets w' = [(7%nat, EvPendingNotifications pushed)]
      ∧ length pushed = 50%nat
      ∧ pushed ≠ unread_of w (mailbox w "amy").
Proof.
  intros w w'. split; [by vm_compute|].
  eexists. split; [by vm_compute|]. split; [by vm_compute|].
  intros Heq. apply (f_equal length) in Heq. vm_compute in Heq. discriminate.
Qed.

(** C6 (amended). When a session joins (on a reachable store), it is put
    in the recipient's room and, if any of the 50 most recent mailbox
    entries is unread, one bulk push carrying exactly those unread entries
    goes to the sessions of the room, the joining one included; nothing is
    pushed when none is unread.  The key space is not changed: the entries
    stay in the mailbox, still unread. *)
Theorem join_flushes_recent_unread socket userId srv w :
  io w = Some srv → faults w = [] → mailbox_typed w userId →
  let pending := unread_of w (take 50 (mailbox w userId)) in
  ∃ w',
    on_join socket userId w = (Ok tt, w')
    ∧ socket ∈ sessions w' userId
    ∧ packets w' = (packets w
                    ++ match pending with
                       | [] => []
                       | _ => map (fun s => (s, EvPendingNotifications pending))
                                  (sessions w' userId)
                       end)%list
    ∧ redis w' = redis w
    ∧ mailbox w' userId = mailbox w userId
    ∧ ∀ ids, unread_of w' ids = unread_of w ids.
Proof.
  intros Hio Hf Hty pending.
  unfold on_join, sendPendingNotifications, logger, io_emit.
  unfold modify at 1. unfold bind at 1. unfold modify at 1. unfold bind at 1.
  unfold try_catch at 1. unfold bind at 1.
  rewrite getUserNotifications_unread by done.
  rewrite Hio. simpl fmap.
  set (srv' := socket_join socket (user_room userId) srv).
  assert (Hin : socket ∈ room_sockets srv' (user_room userId)).
  { subst srv'. unfold socket_join. case_bool_decide as Hdec; [done|].
    unfold room_sockets at 1. simpl. rewrite lookup_insert_eq. simpl.
    apply elem_of_app. right. by apply list_elem_of_singleton. }
  change (unread_of _ (take 50 (mailbox _ userId))) with pending.
  destruct pending as [|v vs] eqn:Hp; simpl.
  - eexists. split; [done|]. unfold sessions, packets. simpl.
    rewrite Hio, app_nil_r. split_and!; try done.
    subst srv'. unfold socket_join. by case_bool_decide.
  - unfold_m. simpl. eexists. split; [done|]. unfold sessions, packets. simpl.
    rewrite Hio. split_and!; try done.
    subst srv'. unfold socket_join. by case_bool_decide.
Qed.

Lemma join_flushes_recent_unread_witness :
  let w := send_many "amy" 51 offline_world in
  let pending := unread_of w (take 50 (mailbox w "amy")) in
  ∃ w',
    on_join 7%nat "amy" w = (Ok tt, w')
    ∧ 7%nat ∈ sessions w' "amy"
    ∧ packets w' = (packets w
                    ++ match pending with
                       | [] => []
                       | _ => map (fun s => (s, EvPendingNotifications pending))
                                  (sessions w' "amy")
                       end)%list
    ∧ redis w' = redis w
    ∧ mailbox w' "amy" = mailbox w "amy"
    ∧ ∀ ids, unread_of w' ids = unread_of w ids.
Proof.
  intros w. apply (join_flushes_recent_unread 7%nat "amy" (mkServer ∅ []) w).
  - vm_compute. reflexivity.
  - vm_compute. reflexivity.
  - vm_compute. exact I.
Defined.

(** * Template substitution *)

Section Templates.

Context `{JsRegExp}.




End Templates.

(** ** What a send writes *)

Lemma writes_same n w w' : redis w' = redis w → io w' = io w → writes n w w'.
Proof.
  intros Hr Hio. split.
  - intros k e. rewrite Hr. auto.
  - exists []. unfold packets. rewrite Hio, app_nil_r. split; [done|].
    intros s ev Hin. by apply elem_of_nil in Hin.
Qed.

Lemma writes_refl n w : writes n w w.
Proof. by apply writes_same. Qed.

Lemma writes_trans n w1 w2 w3 : writes n w1 w2 → writes n w2 w3 → writes n w1 w3.
Proof.
  intros [Hr1 (x1 & Hp1 & Hx1)] [Hr2 (x2 & Hp2 & Hx2)]. split.
  - intros k e Hk. destruct (Hr2 k e Hk) as [Hk2|?]; [|by auto]. by apply Hr1.
  - exists (x1 ++ x2)%list. rewrite Hp2, Hp1, app_assoc. split; [done|].
    intros s ev Hin. apply elem_of_app in Hin as [?|?]; eauto.
Qed.

#[local] Instance writes_preorder n : PreOrder (writes n).
Proof. split; [intros w; apply writes_refl|intros w1 w2 w3; apply writes_trans]. Qed.

Section Preserves.

Context (P : World -> World -> Prop) `{!PreOrder P}.

Lemma preserves_ret {A} (a : A) : preserves P (ret a).
Proof. intros w. simpl. reflexivity. Qed.

Lemma preserves_throw {A} e : preserves P (@throw A e).
Proof. intros w. simpl. reflexivity. Qed.

Lemma preserves_bind {A B} (m : M A) (k : A -> M B) :
  preserves P m → (∀ a, preserves P (k a)) → preserves P (bind m k).
Proof.
  intros Hm Hk w. unfold bind. specialize (Hm w).
  destruct (m w) as [[a|e] w1]; simpl in *; [|done].
  etrans; [done|]. apply Hk.
Qed.

Lemma preserves_try_catch {A} (m : M A) (h : Exn -> M A) :
  preserves P m → (∀ e, preserves P (h e)) → preserves P (try_catch m h).
Proof.
  intros Hm Hh w. unfold try_catch. specialize (Hm w).
  destruct (m w) as [[a|e] w1]; simpl in *; [done|].
  etrans; [done|]. apply Hh.
Qed.

Lemma preserves_for_of {A} (xs : list A) (body : A -> M unit) :
  (∀ x, preserves P (body x)) → preserves P (for_of xs body).
Proof.
  intros Hb. induction xs as [|x xs IH]; simpl; [apply preserves_ret|].
  apply preserves_bind; auto.
Qed.

End Preserves.

Lemma preserves_same {A} n (m : M A) :
  (∀ w, redis (m w).2 = redis w ∧ io (m w).2 = io w) → preserves (writes n) m.
Proof. intros Hm w. apply writes_same; apply Hm. Qed.

Lemma preserves_round_trip n : preserves (writes n) round_trip.
Proof.
  apply preserves_same. intros w. unfold round_trip.
  by destruct (faults w) as [|[|] ?].
Qed.

Lemma preserves_logger n lvl msg : preserves (writes n) (logger lvl msg).
Proof. by apply preserves_same. Qed.

Lemma preserves_gets {A} n (f : World -> A) : preserves (writes n) (gets f).
Proof. by apply preserves_same. Qed.


Lemma preserves_remove n k : preserves (writes n) (redis_remove k).
Proof.
  intros w. split; simpl.
  - intros k' e' Hk'. left. destruct (decide (k = k')) as [->|Hne].
    + by rewrite lookup_delete_eq in Hk'.
    + by rewrite lookup_delete_ne in Hk'.
  - exists []. rewrite app_nil_r. split; [done|].
    intros s ev Hin. by apply elem_of_nil in Hin.
Qed.

Create HintDb writes_db.
#[local] Hint Resolve preserves_round_trip preserves_logger preserves_gets
  preserves_remove : writes_db.

Ltac p_bind := apply preserves_bind; [apply _|..].
Ltac p_try := apply preserves_try_catch; [apply _|..].
Ltac p_ret := apply preserves_ret; apply _.
Ltac p_throw := apply preserves_throw; apply _.











Example processTemplate_plain_keys :
  @SmsService.processTemplate literal_engine "Hello {{name}}, your code is {{code}}. Bye {{name}}"
    [("name", JStr "Ann"); ("code", JNum 42)]
  = Some "Hello Ann, your code is 42. Bye Ann"
  ∧ fst <$> @InAppTemplates.processTemplate literal_engine "Hi {{name}}" "For {{name}}"
              [("name", JStr "Ann")]
    = Some "Hi Ann".
Proof. vm_compute. done. Qed.

(** ** The mailbox keys stay typed

    The typing assumed of the mailbox key is an invariant: it holds of the
    empty key space and every operation of the services keeps it. *)

#[local] Instance stays_typed_preorder : PreOrder stays_typed.
Proof.
  split; [intros w Hw; exact Hw|intros w1 w2 w3 H12 H23 Hw; exact (H23 (H12 Hw))].
Qed.

Lemma rate_key_ne_mailbox_key id ws u : rate_key id ws ≠ mailbox_key u.
Proof. unfold rate_key, mailbox_key. intros Heq. cbn in Heq. by simplify_eq. Qed.

Lemma mailboxes_typed_at w u : mailboxes_typed w → mailbox_typed w u.
Proof.
  intros Hty. unfold mailbox_typed, live.
  destruct (redis w !! mailbox_key u) as [e|] eqn:Hk; [|done].
  destruct (expired (clock w) e); [done|].
  destruct (Hty u e Hk) as [l Hl]. destruct e as [v x]. simpl in Hl. by subst.
Qed.

Lemma mailboxes_typed_empty w : redis w = ∅ → mailboxes_typed w.
Proof. intros Hr u e. by rewrite Hr, lookup_empty. Qed.

Lemma typed_same {A} (m : M A) :
  (∀ w, redis (m w).2 = redis w) → preserves stays_typed m.
Proof. intros Hm w Hty u e. rewrite Hm. apply Hty. Qed.

Lemma typed_put k e :
  (∀ u, k ≠ mailbox_key u) ∨ (∃ l, e_val e = VIds l) →
  preserves stays_typed (redis_put k e).
Proof.
  intros Hk w Hty u e'. simpl. destruct (decide (k = mailbox_key u)) as [->|Hne].
  - rewrite lookup_insert_eq. intros ?; simplify_eq.
    destruct Hk as [Hk|Hk]; [by destruct (Hk u)|done].
  - rewrite lookup_insert_ne by done. apply Hty.
Qed.

Lemma typed_remove k : preserves stays_typed (redis_remove k).
Proof.
  intros w Hty u e. simpl. destruct (decide (k = mailbox_key u)) as [->|Hne].
  - by rewrite lookup_delete_eq.
  - rewrite lookup_delete_ne by done. apply Hty.
Qed.

Lemma typed_round_trip : preserves stays_typed round_trip.
Proof.
  apply typed_same. intros w. unfold round_trip. by destruct (faults w) as [|[|] ?].
Qed.

Lemma typed_logger lvl msg : preserves stays_typed (logger lvl msg).
Proof. by apply typed_same. Qed.

Lemma typed_gets {A} (f : World -> A) : preserves stays_typed (gets f).
Proof. by apply typed_same. Qed.

Lemma typed_io_emit room ev : preserves stays_typed (io_emit room ev).
Proof. by apply typed_same. Qed.

Create HintDb typed_db.
#[local] Hint Resolve typed_round_trip typed_logger typed_gets typed_remove
  typed_io_emit : typed_db.

Ltac frame_typed :=
  repeat first
    [ match goal with |- ∀ _, _ => intro end
    | solve [eauto with typed_db]
    | p_bind
    | p_try
    | p_ret
    | p_throw
    | match goal with
      | |- preserves _ (if ?b then _ else _) => destruct b
      | |- preserves _ (match ?x with _ => _ end) => destruct x
      end ].

Lemma typed_cache_set k v ttl :
  (∀ u, k ≠ mailbox_key u) ∨ (∃ l, v = VIds l) →
  preserves stays_typed (CacheService.set k v ttl).
Proof.
  intros Hk. unfold CacheService.set, redis_setex, redis_set, Date_now.
  frame_typed; by apply typed_put.
Qed.

Lemma typed_cache_get k : preserves stays_typed (CacheService.get k).
Proof. unfold CacheService.get, redis_get. frame_typed. Qed.

Lemma typed_cache_del k : preserves stays_typed (CacheService.del k).
Proof. unfold CacheService.del, redis_del. frame_typed. Qed.

Lemma typed_as_id_array got : preserves stays_typed (as_id_array got).
Proof. unfold as_id_array. frame_typed. Qed.

Lemma typed_body_key id : ∀ u, body_key id ≠ mailbox_key u.
Proof. intros u Heq. by apply (mailbox_key_ne_body_key u id). Qed.

Lemma typed_cache_set_body id v ttl :
  preserves stays_typed (CacheService.set (body_key id) v ttl).
Proof. apply typed_cache_set. left. apply typed_body_key. Qed.

Lemma typed_cache_set_ids k ids ttl :
  preserves stays_typed (CacheService.set k (VIds ids) ttl).
Proof. apply typed_cache_set. eauto. Qed.

#[local] Hint Resolve typed_cache_get typed_cache_del typed_as_id_array
  typed_cache_set_body typed_cache_set_ids : typed_db.

Lemma typed_increment id ws ttl :
  preserves stays_typed (CacheService.increment (rate_key id ws) ttl).
Proof.
  unfold CacheService.increment, CacheService.increment_try, redis_incr, redis_expire,
    Date_now.
  frame_typed; apply typed_put; left; intros u; apply rate_key_ne_mailbox_key.
Qed.

Lemma typed_isAllowed rl id : preserves stays_typed (isAllowed rl id).
Proof.
  intros w. unfold isAllowed, Date_now.
  apply (preserves_try_catch stays_typed); [|frame_typed].
  p_bind; [frame_typed|]. intros now. p_bind; [apply typed_increment|frame_typed].
Qed.

Lemma typed_storeNotification n ttl :
  preserves stays_typed (storeNotification n ttl).
Proof.
  unfold storeNotification.
  p_try; [|frame_typed].
  p_bind; [apply typed_cache_set; left; apply typed_body_key|intros _].
  p_bind; [apply typed_cache_get|intros got].
  p_bind; [apply typed_as_id_array|intros ids].
  p_bind.
  - destruct (100 <? length (n_id n :: ids))%nat; [|p_ret].
    p_bind; [|intros; p_ret].
    apply preserves_for_of; [apply _|]. intros id. frame_typed.
  - intros ids'. p_bind; [|intros; p_ret].
    apply typed_cache_set. eauto.
Qed.

Lemma typed_deliverNotification n : preserves stays_typed (deliverNotification n).
Proof. unfold deliverNotification. frame_typed. Qed.

#[local] Hint Resolve typed_storeNotification typed_deliverNotification : typed_db.

Lemma typed_sendNotification en options :
  preserves stays_typed (sendNotification en options).
Proof. unfold sendNotification, generateNotificationId, Date_now. frame_typed. Qed.

Lemma typed_markNotificationAsRead id userId :
  preserves stays_typed (markNotificationAsRead id userId).
Proof. unfold markNotificationAsRead. frame_typed. Qed.

Lemma typed_deleteNotification id userId :
  preserves stays_typed (deleteNotification id userId).
Proof. unfold deleteNotification. frame_typed. Qed.

Lemma typed_collect includeRead ids : ∀ acc,
  preserves stays_typed (collect includeRead ids acc).
Proof. induction ids as [|id ids IH]; intros acc; simpl; frame_typed. Qed.

Lemma typed_on_join socket userId : preserves stays_typed (on_join socket userId).
Proof.
  unfold on_join, sendPendingNotifications, getUserNotifications.
  p_bind; [by apply typed_same|intros _].
  pose proof typed_collect. frame_typed.
Qed.

Lemma send_many_typed userId k : mailboxes_typed (send_many userId k offline_world).
Proof.
  induction k as [|k IH]; simpl; [by apply mailboxes_typed_empty|].
  by apply (typed_sendNotification _ _ (set_clock _ _)).
Qed.

(** * The cache service on its own *)

Lemma succeeds_ret {A} (a : A) : succeeds (ret a).
Proof. intros w. by eexists _, _. Qed.

Lemma succeeds_bind {A B} (m : M A) (k : A -> M B) :
  succeeds m → (∀ a, succeeds (k a)) → succeeds (bind m k).
Proof.
  intros Hm Hk w. unfold bind. destruct (Hm w) as (a & w1 & ->). apply Hk.
Qed.

Lemma succeeds_try_catch {A} (m : M A) (h : Exn -> M A) :
  (∀ e, succeeds (h e)) → succeeds (try_catch m h).
Proof.
  intros Hh w. unfold try_catch. destruct (m w) as [[a|e] w1]; [by eexists _, _|].
  apply Hh.
Qed.

Lemma succeeds_logged {A} lvl msg (a : A) : succeeds (logger lvl msg ;; ret a).
Proof. intros w. by eexists _, _. Qed.

(** X1. No method of the cache service raises, whatever the state of the
    connection and of the key space: errors end as return values. *)
Theorem cache_never_raises key v ttl :
  succeeds (CacheService.get key)
  ∧ succeeds (CacheService.set key v ttl)
  ∧ succeeds (CacheService.del key)
  ∧ succeeds (CacheService.exists_ key)
  ∧ succeeds (CacheService.increment key ttl).
Proof.
  unfold CacheService.get, CacheService.set, CacheService.del, CacheService.exists_,
    CacheService.increment.
  split_and!; apply succeeds_try_catch; intros e; apply succeeds_logged.
Qed.



Lemma cache_set_plain_ok k v w :
  faults w = [] →
  CacheService.set k v None w
  = (Ok true, set_redis (<[k := mkEntry v None]> (redis w)) w)
  ∧ CacheService.set k v (Some 0) w
    = (Ok true, set_redis (<[k := mkEntry v None]> (redis w)) w).
Proof.
  intros Hf. unfold CacheService.set. unfold_redis. unfold_m. simpl. by rewrite Hf.
Qed.

(** X3. Round trip on a reachable store: after [set(key, value, ttl)] with
    a TTL that is absent, zero or positive, [get(key)] answers the value at
    every later instant before the deadline, [ttl] seconds after now (at every
    instant when the TTL is absent or zero) and null from the deadline on;
    the reads change nothing, and other keys read as before. *)
Theorem cache_set_get key v ttl w :
  faults w = [] → 0 <= default 0 ttl →
  ∃ w1,
    CacheService.set key v ttl w = (Ok true, w1)
    ∧ (∀ t, CacheService.get key (set_clock t w1)
            = (Ok (match deadline (clock w) ttl with
                   | Some d => if d <=? t then None else Some v
                   | None => Some v
                   end), set_clock t w1))
    ∧ ∀ key' t, key' ≠ key →
        CacheService.get key' (set_clock t w1)
        = (Ok (e_val <$> live (set_clock t w) key'), set_clock t w1).
Proof.
  intros Hf Httl.
  assert (Hset : ∃ e, CacheService.set key v ttl w
                      = (Ok true, set_redis (<[key := mkEntry v e]> (redis w)) w)
                      ∧ e = deadline (clock w) ttl).
  { destruct ttl as [t|]; simpl in *.
    - destruct (Z.eqb_spec t 0) as [->|Hne].
      + eexists. split; [by apply cache_set_plain_ok|done].
      + eexists. split; [apply cache_set_ok; [done|lia]|done].
    - eexists. split; [by apply cache_set_plain_ok|done]. }
  destruct Hset as (e & Hset & He). eexists. split; [done|]. split.
  - intros t. rewrite cache_get_ok by done. f_equal. f_equal.
    unfold live, expired. simpl. rewrite lookup_insert_eq. simpl. rewrite He.
    destruct (deadline (clock w) ttl) as [d|]; [|done]. by destruct (d <=? t).
  - intros key' t Hne. rewrite cache_get_ok by done. f_equal. f_equal.
    unfold live. simpl. by rewrite lookup_insert_ne.
Qed.

Lemma cache_set_get_witness :
  let w := set_clock 5000 empty_world in
  ∃ w1,
    CacheService.set "k" (VIds ["a"; "b"]) (Some 60) w = (Ok true, w1)
    ∧ (∀ t, CacheService.get "k" (set_clock t w1)
            = (Ok (match deadline (clock w) (Some 60) with
                   | Some d => if d <=? t then None else Some (VIds ["a"; "b"])
                   | None => Some (VIds ["a"; "b"])
                   end), set_clock t w1))
    ∧ ∀ key' t, key' ≠ "k" →
        CacheService.get key' (set_clock t w1)
        = (Ok (e_val <$> live (set_clock t w) key'), set_clock t w1).
Proof.
  intros w. apply (cache_set_get "k" (VIds ["a"; "b"]) (Some 60) w).
  - reflexivity.
  - vm_compute. discriminate.
Defined.

(** X4. A negative TTL is refused by the store: [set] answers false, logs
    the error and leaves the key space as it was, whatever the connection. *)
Theorem cache_set_negative_ttl key v ttl w :
  ttl < 0 →
  ∃ w1,
    CacheService.set key v (Some ttl) w = (Ok false, w1)
    ∧ redis w1 = redis w
    ∧ logs w1 = (logs w ++ [(LError, "Cache set error for key " +:+ key +:+ ":")])%list.
Proof.
  intros Httl. unfold CacheService.set, truthy_num. unfold_redis. unfold_m.
  destruct (Z.eqb_spec ttl 0) as [?|_]; [lia|]. simpl.
  destruct (Z.leb_spec ttl 0) as [_|?]; [|lia].
  destruct (faults w) as [|[|] fs]; simpl; eexists; by split_and!.
Qed.

Lemma cache_set_negative_ttl_witness :
  ∃ w1,
    CacheService.set "k" (VInt 1) (Some (-5)) empty_world = (Ok false, w1)
    ∧ redis w1 = redis empty_world
    ∧ logs w1 = (logs empty_world
                 ++ [(LError, "Cache set error for key " +:+ "k" +:+ ":")])%list.
Proof. apply (cache_set_negative_ttl "k" (VInt 1) (-5) empty_world). reflexivity. Defined.

(** X5. On a reachable store [exists] answers true exactly for the keys
    [get] has a value for, and after [del] a key neither exists nor reads,
    while every other key is untouched. *)
Theorem cache_exists_del key w :
  faults w = [] →
  CacheService.exists_ key w = (Ok (bool_decide (is_Some (live w key))), w)
  ∧ ∃ w1,
      CacheService.del key w = (Ok true, w1)
      ∧ CacheService.exists_ key w1 = (Ok false, w1)
      ∧ CacheService.get key w1 = (Ok None, w1)
      ∧ ∀ key', key' ≠ key → live w1 key' = live w key'.
Proof.
  intros Hf. split.
  - unfold CacheService.exists_, redis_exists. unfold_redis. unfold_m. rewrite Hf.
    by destruct (live w key).
  - eexists. split; [by apply cache_del_ok|].
    assert (Hl : live (set_redis (delete key (redis w)) w) key = None).
    { unfold live. simpl. by rewrite lookup_delete_eq. }
    split_and!.
    + unfold CacheService.exists_, redis_exists. unfold_redis. unfold_m. simpl.
      by rewrite Hf, Hl.
    + rewrite cache_get_ok by done. by rewrite Hl.
    + intros key' Hne. unfold live. simpl. by rewrite lookup_delete_ne.
Qed.

Lemma cache_exists_del_witness :
  let w := (CacheService.set "k" (VInt 3) None empty_world).2 in
  CacheService.exists_ "k" w = (Ok (bool_decide (is_Some (live w "k"))), w)
  ∧ ∃ w1,
      CacheService.del "k" w = (Ok true, w1)
      ∧ CacheService.exists_ "k" w1 = (Ok false, w1)
      ∧ CacheService.get "k" w1 = (Ok None, w1)
      ∧ ∀ key', key' ≠ "k" → live w1 key' = live w key'.
Proof. intros w. apply (cache_exists_del "k" w). reflexivity. Defined.

(** * The rate limiter as middleware *)

(** X6. If EXPIRE fails after INCR has created the counter, [increment]
    answers 0 although the call was counted, and the counter is left
    without a TTL; no later increment gives it one, since only the call
    that reads 1 sets it. *)
Theorem increment_expire_failure key ttl w fs :
  faults w = false :: true :: fs → live w key = None → 0 < ttl →
  (∃ w1, CacheService.increment key (Some ttl) w = (Ok 0, w1)
         ∧ redis w1 !! key = Some (mkEntry (VInt 1) None))
  ∧ ∀ w2 z, faults w2 = [] → redis w2 !! key = Some (mkEntry (VInt z) None) → 1 <= z →
      ∃ w3, CacheService.increment key (Some ttl) w2 = (Ok (z + 1), w3)
            ∧ redis w3 !! key = Some (mkEntry (VInt (z + 1)) None).
Proof.
  intros Hf Hl Httl. split.
  - unfold CacheService.increment, CacheService.increment_try, truthy_num.
    unfold_redis. unfold_m. rewrite Hf. change (live (set_faults _ w) key) with (live w key).
    rewrite Hl. simpl. destruct (Z.eqb_spec ttl 0) as [?|_]; [lia|]. simpl.
    eexists. split; [done|]. simpl. by rewrite lookup_insert_eq.
  - intros w2 z Hf2 Hk Hz.
    unfold CacheService.increment, CacheService.increment_try.
    unfold_redis. unfold_m. rewrite Hf2. unfold live, expired. rewrite Hk. simpl.
    destruct (Z.eqb_spec (z + 1) 1) as [?|_]; [lia|]. rewrite andb_false_r.
    eexists. split; [done|]. simpl. by rewrite lookup_insert_eq.
Qed.

Lemma increment_expire_failure_witness :
  let w := set_faults [false; true] empty_world in
  (∃ w1, CacheService.increment "rate_limit:u:0" (Some 60) w = (Ok 0, w1)
         ∧ redis w1 !! "rate_limit:u:0" = Some (mkEntry (VInt 1) None))
  ∧ ∀ w2 z, faults w2 = [] →
      redis w2 !! "rate_limit:u:0" = Some (mkEntry (VInt z) None) → 1 <= z →
      ∃ w3, CacheService.increment "rate_limit:u:0" (Some 60) w2 = (Ok (z + 1), w3)
            ∧ redis w3 !! "rate_limit:u:0" = Some (mkEntry (VInt (z + 1)) None).
Proof.
  intros w. apply (increment_expire_failure "rate_limit:u:0" 60 w []).
  - reflexivity.
  - reflexivity.
  - reflexivity.
Defined.

Lemma ceil_div_bounds (x W : Z) :
  0 < x <= W → 1 <= Math_ceil_div x 1000 <= Math_ceil_div W 1000.
Proof.
  intros [H1 H2]. unfold Math_ceil_div. split.
  - assert ((- x) / 1000 <= (-1) / 1000) by (apply Z.div_le_mono; lia).
    change ((-1) / 1000) with (-1) in *. lia.
  - assert ((- W) / 1000 <= (- x) / 1000) by (apply Z.div_le_mono; lia). lia.
Qed.

(** X7. The life of a counter: the key created by the first call of a
    window at instant [t] is readable exactly until its deadline, the
    window length rounded up to whole seconds after [t], an instant that is
    not before the end of the window and less than one second plus a window
    length after [t]. *)
Theorem counter_lifetime rl t id w :
  0 < windowMs rl → faults w = [] →
  live (set_clock t w) (rate_key id (windowStart rl t)) = None →
  let w1 := (call rl (t, id) w).2 in
  let d := t + Math_ceil_div (windowMs rl) 1000 * 1000 in
  (∀ t', is_Some (live (set_clock t' w1) (rate_key id (windowStart rl t))) ↔ t' < d)
  ∧ windowStart rl t + windowMs rl <= d
  ∧ d < t + windowMs rl + 1000.
Proof.
  intros HW Hf Hl w1 d. subst w1. rewrite (call_fresh rl HW) by done. simpl.
  pose proof (window_bounds rl HW t) as Hb.
  pose proof (ttl_covers_window rl) as Hc.
  split_and!.
  - intros t'. unfold live, expired. simpl. rewrite lookup_insert_eq. simpl.
    fold d. destruct (Z.leb_spec d t'); split; intros Hx; try done; try lia.
  - subst d. lia.
  - subst d. unfold Math_ceil_div.
    pose proof (Z.mul_succ_div_gt (- windowMs rl) 1000 ltac:(lia)). lia.
Qed.

Lemma counter_lifetime_witness :
  let w1 := (call (mkLimiter 1500 2) (100, "u") empty_world).2 in
  let d := 100 + Math_ceil_div 1500 1000 * 1000 in
  (∀ t', is_Some (live (set_clock t' w1) (rate_key "u" (windowStart (mkLimiter 1500 2) 100)))
         ↔ t' < d)
  ∧ windowStart (mkLimiter 1500 2) 100 + 1500 <= d
  ∧ d < 100 + 1500 + 1000.
Proof.
  apply (counter_lifetime (mkLimiter 1500 2) 100 "u" empty_world).
  - reflexivity.
  - reflexivity.
  - reflexivity.
Defined.

(** X8. Limiters are told apart by nothing but their window: after the
    calls [pre] of one limiter, a call of another limiter with the same
    [windowMs], for the same identifier and inside the same window, reads
    the counter those calls left and is answered as the call numbered
    one more than their count. *)
Theorem limiters_share_counter rl1 rl2 id ws pre t w0 :
  windowMs rl1 = windowMs rl2 → 0 < windowMs rl1 →
  faults w0 = [] → redis w0 !! rate_key id ws = None →
  windowStart rl2 t = ws →
  let n := count (hits rl1 id ws) pre + 1 in
  (call rl2 (t, id) (run rl1 pre w0).2).1
  = Ok {| allowed := n <=? maxRequests rl2;
          remaining := Z.max 0 (maxRequests rl2 - n);
          resetTime := ws + windowMs rl2 |}.
Proof.
  intros HWeq HW Hf Hk Hws n.
  destruct (run_window rl1 HW id ws pre 0 w0) as [Hinv _]; [lia|by split|].
  pose proof (count_nonneg (hits rl1 id ws) pre) as Hn.
  assert (Hinv2 : counter_is rl2 id ws (0 + count (hits rl1 id ws) pre) (run rl1 pre w0).2).
  { unfold counter_is in *. by rewrite <- HWeq. }
  assert (HW2 : 0 < windowMs rl2) by lia.
  destruct (call_in_window rl2 HW2 id ws (0 + count (hits rl1 id ws) pre) t _
              ltac:(lia) Hinv2 Hws) as [-> _].
  unfold answer, n. by rewrite Z.add_0_l.
Qed.

Lemma limiters_share_counter_witness :
  let pre := [(5, "10.0.0.7"); (6, "10.0.0.7"); (7, "10.0.0.7"); (8, "10.0.0.7");
              (9, "10.0.0.7")] in
  let n := count (hits (mkLimiter 900000 100) "10.0.0.7" 0) pre + 1 in
  (call authRateLimiter (10, "10.0.0.7") (run (mkLimiter 900000 100) pre empty_world).2).1
  = Ok {| allowed := n <=? maxRequests authRateLimiter;
          remaining := Z.max 0 (maxRequests authRateLimiter - n);
          resetTime := 0 + windowMs authRateLimiter |}.
Proof.
  intros pre.
  apply (limiters_share_counter (mkLimiter 900000 100) authRateLimiter "10.0.0.7" 0 pre 10
           empty_world).
  - reflexivity.
  - reflexivity.
  - reflexivity.
  - reflexivity.
  - reflexivity.
Defined.

Lemma middleware_eq rl req w :
  middleware rl req w
  = match isAllowed rl (identifier req) w with
    | (Ok result, w1) =>
        let headers :=
          mkHeaders (pretty (maxRequests rl)) (pretty (remaining result)) (resetTime result) in
        if allowed result then (Ok (mkHandled (Some headers) None), w1)
        else (Ok (mkHandled (Some headers)
                    (Some (mkReply 429 "Too many requests" "RATE_LIMIT_EXCEEDED"
                                   (Math_ceil_div (resetTime result - clock w1) 1000)))),
              add_log (LWarn, "Rate limit exceeded for " +:+ identifier req) w1)
    | (Throw _, w1) =>
        (Ok (mkHandled None None), add_log (LError, "Rate limiter middleware error:") w1)
    end.
Proof.
  unfold middleware. unfold try_catch at 1. unfold bind at 1.
  destruct (isAllowed rl (identifier req) w) as [[result|e] w1]; [|done].
  destruct (allowed result); [done|]. unfold logger, Date_now. by unfold_m.
Qed.

Section ServeWindow.

Variable rl : RedisRateLimiter.
Hypothesis window_pos : 0 < windowMs rl.
Variable id : string.
Variable ws : Z.

Lemma serve_in_window c t req w :
  0 <= c → counter_is rl id ws c w → identifier req = id → windowStart rl t = ws →
  (serve rl (t, req) w).1 = Ok (nth_handled rl ws (c + 1) t)
  ∧ counter_is rl id ws (c + 1) (serve rl (t, req) w).2.
Proof.
  intros Hc Hinv Hid Hws. unfold serve. simpl. rewrite middleware_eq, Hid.
  destruct (call_in_window rl window_pos id ws c t w Hc Hinv Hws) as [Hr Hinv'].
  unfold call in Hr, Hinv'. simpl in Hr, Hinv'.
  assert (Hclock : clock (isAllowed rl id (set_clock t w)).2 = t).
  { destruct Hinv as [Hf _].
    destruct (call_frame rl t id w Hf) as [_ _].
    unfold isAllowed, CacheService.increment, CacheService.increment_try.
    unfold_redis. unfold_m. simpl. rewrite Hf.
    repeat (match goal with
            | |- context [match live ?w ?k with _ => _ end] =>
                destruct (live w k) as [[[?|?|?] ?]|]
            | |- context [if ?b then _ else _] => destruct b
            end; simpl; rewrite ?Hf; simpl); done. }
  destruct (isAllowed rl id (set_clock t w)) as [r w1]. simpl in *. subst r.
  unfold answer, nth_handled. simpl.
  destruct (c + 1 <=? maxRequests rl); simpl; [done|].
  rewrite Hclock. split; [done|].
  destruct Hinv' as [Hf' Hk']. by split.
Qed.

Lemma serve_window reqs : ∀ c w,
  0 <= c → counter_is rl id ws c w →
  Forall (fun tr => identifier tr.2 = id ∧ windowStart rl tr.1 = ws) reqs →
  ∀ i t req, reqs !! i = Some (t, req) →
    (serve_all rl reqs w).1 !! i = Some (Ok (nth_handled rl ws (c + Z.of_nat i + 1) t)).
Proof.
  induction reqs as [|[t0 req0] reqs IH]; intros c w Hc Hinv Hall i t req Hi; [done|].
  apply Forall_cons in Hall as [[Hid Hws] Hall]. simpl in Hid, Hws.
  destruct (serve_in_window c t0 req0 w Hc Hinv Hid Hws) as [Hr Hinv'].
  simpl. destruct (serve rl (t0, req0) w) as [r w1]. simpl in Hr, Hinv'. subst r.
  specialize (IH (c + 1) w1 ltac:(lia) Hinv' Hall).
  destruct (serve_all rl reqs w1) as [rs w2]. simpl in *.
  destruct i as [|i]; simpl in *.
  - simplify_eq. by rewrite Z.add_0_r.
  - rewrite (IH i t req Hi). do 3 f_equal. lia.
Qed.

End ServeWindow.

(** X9. A burst through the middleware: of the requests one identifier
    makes inside one window, on a reachable store, the first [maxRequests]
    are passed on with the remaining quota in the headers, and every later
    one is answered 429 RATE_LIMIT_EXCEEDED with a [retryAfter] that is at
    least one second and at most the window length in whole seconds. *)
Theorem middleware_burst rl id ws reqs w0 :
  0 < windowMs rl →
  faults w0 = [] → redis w0 !! rate_key id ws = None →
  Forall (fun tr => identifier tr.2 = id ∧ windowStart rl tr.1 = ws) reqs →
  ∀ i t req, reqs !! i = Some (t, req) →
    let n := Z.of_nat i + 1 in
    (serve_all rl reqs w0).1 !! i
    = Some (Ok {| set_headers :=
                    Some {| h_limit := pretty (maxRequests rl);
                            h_remaining := pretty (Z.max 0 (maxRequests rl - n));
                            h_reset := ws + windowMs rl |};
                  reply :=
                    if n <=? maxRequests rl then None
                    else Some {| rr_status := 429;
                                 rr_error := "Too many requests";
                                 rr_code := "RATE_LIMIT_EXCEEDED";
                                 rr_retryAfter :=
                                   Math_ceil_div (ws + windowMs rl - t) 1000 |} |})
    ∧ 1 <= Math_ceil_div (ws + windowMs rl - t) 1000 <= Math_ceil_div (windowMs rl) 1000.
Proof.
  intros HW Hf Hk Hall i t req Hi n. split.
  - rewrite (serve_window rl HW id ws reqs 0 w0 ltac:(lia) ltac:(by split) Hall i t req Hi).
    by rewrite Z.add_0_l.
  - apply ceil_div_bounds.
    assert (Hin : (t, req) ∈ reqs) by (by eapply list_elem_of_lookup_2).
    rewrite Forall_forall in Hall. destruct (Hall _ Hin) as [_ Hws]. simpl in Hws.
    pose proof (window_bounds rl HW t). lia.
Qed.

Lemma middleware_burst_witness :
  let alice := mkRequest (Some "alice") (Some "10.0.0.7") "/api/auth/login" None in
  let reqs := [(900001, alice); (900500, alice); (901000, alice); (1000000, alice);
               (1100000, alice); (1200000, alice)] in
  let n := Z.of_nat 5 + 1 in
  (serve_all authRateLimiter reqs empty_world).1 !! 5%nat
  = Some (Ok {| set_headers :=
                  Some {| h_limit := pretty (maxRequests authRateLimiter);
                          h_remaining := pretty (Z.max 0 (maxRequests authRateLimiter - n));
                          h_reset := 900000 + windowMs authRateLimiter |};
                reply :=
                  if n <=? maxRequests authRateLimiter then None
                  else Some {| rr_status := 429;
                               rr_error := "Too many requests";
                               rr_code := "RATE_LIMIT_EXCEEDED";
                               rr_retryAfter :=
                                 Math_ceil_div (900000 + windowMs authRateLimiter - 1200000)
                                   1000 |} |})
  ∧ 1 <= Math_ceil_div (900000 + windowMs authRateLimiter - 1200000) 1000
    <= Math_ceil_div (windowMs authRateLimiter) 1000.
Proof.
  intros alice reqs.
  apply (middleware_burst authRateLimiter "alice" 900000 reqs empty_world
           ltac:(reflexivity) ltac:(reflexivity) ltac:(reflexivity)
           ltac:(subst reqs; repeat constructor) 5%nat 1200000 alice).
  reflexivity.
Defined.



(** * The mailbox operations on the owner's side *)

Lemma packets_emit w userId ev :
  packets (set_io (emit_to (user_room userId) ev <$> io w) w)
  = (packets w ++ broadcast w userId ev)%list.
Proof.
  unfold packets, broadcast, sessions. simpl. destruct (io w) as [srv|]; done.
Qed.

(** X11. Marking one's own notification as read, on a reachable store:
    the body is rewritten with [read = true] and without a TTL, so it is
    readable at every later instant, its original deadline included; no
    other key changes and every session of the owner is told. *)
Theorem markNotificationAsRead_own id userId n exp w :
  faults w = [] →
  live w (body_key id) = Some (mkEntry (VNotification n) exp) →
  n_to n = userId →
  ∃ w',
    markNotificationAsRead id userId w = (Ok tt, w')
    ∧ (∀ t, stored_body (set_clock t w') id = Some (VNotification (mark_read n)))
    ∧ (∀ k, k ≠ body_key id → redis w' !! k = redis w !! k)
    ∧ packets w' = (packets w ++ broadcast w userId (EvNotificationRead id))%list.
Proof.
  intros Hf Hl Hto. unfold markNotificationAsRead.
  unfold try_catch, bind at 1. rewrite cache_get_ok by done. rewrite Hl. simpl.
  rewrite bool_decide_eq_true_2 by done.
  unfold bind at 1. rewrite (proj1 (cache_set_plain_ok _ _ w Hf)).
  unfold io_emit, modify. eexists. split; [done|]. split_and!.
  - intros t. unfold stored_body, live, expired. simpl. by rewrite lookup_insert_eq.
  - intros k Hk. simpl. by rewrite lookup_insert_ne.
  - apply (packets_emit (set_redis _ w)).
Qed.

Lemma markNotificationAsRead_own_witness :
  let n := mkNotification "n1" "alice" None "hello" (Some info) None "t" (Some false) in
  let w := mkWorld 1000 {[ body_key "n1" := mkEntry (VNotification n) (Some 5000) ]}
             [] [] (Some (mkServer {[ user_room "alice" := [7%nat] ]} [])) true in
  ∃ w',
    markNotificationAsRead "n1" "alice" w = (Ok tt, w')
    ∧ (∀ t, stored_body (set_clock t w') "n1" = Some (VNotification (mark_read n)))
    ∧ (∀ k, k ≠ body_key "n1" → redis w' !! k = redis w !! k)
    ∧ packets w' = (packets w ++ broadcast w "alice" (EvNotificationRead "n1"))%list.
Proof.
  intros n w. apply (markNotificationAsRead_own "n1" "alice" n (Some 5000) w).
  - reflexivity.
  - vm_compute. reflexivity.
  - reflexivity.
Defined.

(** X12. Deleting one's own notification, on a reachable store with a
    well-typed mailbox: the id leaves the mailbox, the body is gone, the
    mailbox is rewritten without a TTL (it reads the same at every later
    instant), no other key changes and every session of the owner is told. *)
Theorem deleteNotification_own id userId n exp w :
  faults w = [] →
  live w (body_key id) = Some (mkEntry (VNotification n) exp) →
  n_to n = userId → mailbox_typed w userId →
  ∃ w',
    deleteNotification id userId w = (Ok tt, w')
    ∧ (∀ t, mailbox (set_clock t w') userId
            = List.filter (fun i => negb (bool_decide (i = id))) (mailbox w userId))
    ∧ (∀ t, stored_body (set_clock t w') id = None)
    ∧ (∀ k, k ≠ body_key id → k ≠ mailbox_key userId → redis w' !! k = redis w !! k)
    ∧ packets w' = (packets w ++ broadcast w userId (EvNotificationDeleted id))%list.
Proof.
  intros Hf Hl Hto Hty. unfold deleteNotification.
  unfold try_catch, bind at 1. rewrite cache_get_ok by done. rewrite Hl. simpl.
  rewrite bool_decide_eq_true_2 by done.
  unfold bind at 1. rewrite cache_get_ok by done.
  assert (Hids : as_id_array (e_val <$> live w (mailbox_key userId)) w
                 = (Ok (mailbox w userId), w)).
  { unfold mailbox, mailbox_typed in *.
    destruct (live w (mailbox_key userId)) as [[[?|l|?] ?]|]; done. }
  unfold bind at 1. rewrite Hids.
  unfold bind at 1. rewrite (proj1 (cache_set_plain_ok _ _ w Hf)).
  unfold bind at 1. rewrite cache_del_ok by done.
  unfold io_emit, modify. eexists. split; [done|]. split_and!.
  - intros t. unfold mailbox, live, expired. simpl.
    rewrite lookup_delete_ne by (apply not_eq_sym, mailbox_key_ne_body_key).
    by rewrite lookup_insert_eq.
  - intros t. unfold stored_body, live. simpl. by rewrite lookup_delete_eq.
  - intros k Hk1 Hk2. simpl. rewrite lookup_delete_ne by done.
    by rewrite lookup_insert_ne.
  - apply (packets_emit (set_redis _ (set_redis _ w))).
Qed.

Lemma deleteNotification_own_witness :
  let n := mkNotification "n1" "alice" None "hello" (Some info) None "t" (Some false) in
  let w := mkWorld 1000
             (<[ mailbox_key "alice" := mkEntry (VIds ["n2"; "n1"]) (Some 5000) ]>
                {[ body_key "n1" := mkEntry (VNotification n) (Some 5000) ]})
             [] [] (Some (mkServer {[ user_room "alice" := [7%nat] ]} [])) true in
  ∃ w',
    deleteNotification "n1" "alice" w = (Ok tt, w')
    ∧ (∀ t, mailbox (set_clock t w') "alice"
            = List.filter (fun i => negb (bool_decide (i = "n1"))) (mailbox w "alice"))
    ∧ (∀ t, stored_body (set_clock t w') "n1" = None)
    ∧ (∀ k, k ≠ body_key "n1" → k ≠ mailbox_key "alice" → redis w' !! k = redis w !! k)
    ∧ packets w' = (packets w ++ broadcast w "alice" (EvNotificationDeleted "n1"))%list.
Proof.
  intros n w. apply (deleteNotification_own "n1" "alice" n (Some 5000) w).
  - reflexivity.
  - vm_compute. reflexivity.
  - reflexivity.
  - vm_compute. exact I.
Defined.

(** Reading through the cache never raises and leaves everything but the
    connection schedule and the log as it was. *)
Lemma cache_get_reads k w :
  ∃ x w', CacheService.get k w = (Ok x, w')
          ∧ redis w' = redis w ∧ io w' = io w ∧ clock w' = clock w.
Proof.
  unfold CacheService.get. unfold_redis. unfold_m.
  destruct (faults w) as [|[|] fs]; simpl; eexists _, _; by split_and!.
Qed.

Lemma collect_reads includeRead ids : ∀ acc w,
  ∃ l w', collect includeRead ids acc w = (Ok l, w')
          ∧ (length l <= length acc + length ids)%nat
          ∧ redis w' = redis w ∧ io w' = io w ∧ clock w' = clock w.
Proof.
  induction ids as [|id ids IH]; intros acc w; simpl.
  - eexists _, _. split; [done|]. split_and!; [lia|done..].
  - unfold bind at 1. destruct (cache_get_reads (body_key id) w) as (x & w1 & -> & Hr & Hi & Hc).
    destruct x as [v|].
    + destruct (truthy v && (includeRead || negb (field_read v))).
      * destruct (IH (acc ++ [v])%list w1) as (l & w2 & -> & Hlen & Hr2 & Hi2 & Hc2).
        eexists _, _. split; [done|]. rewrite length_app in Hlen. simpl in Hlen.
        split_and!; [lia|congruence..].
      * destruct (IH acc w1) as (l & w2 & -> & Hlen & Hr2 & Hi2 & Hc2).
        eexists _, _. split; [done|]. split_and!; [lia|congruence..].
    + destruct (IH acc w1) as (l & w2 & -> & Hlen & Hr2 & Hi2 & Hc2).
      eexists _, _. split; [done|]. split_and!; [lia|congruence..].
Qed.

Lemma slice0_length {A} (limit : Z) (l : list A) :
  0 <= limit → (length (slice0 limit l) <= Z.to_nat limit)%nat.
Proof.
  intros Hl. unfold slice0. destruct (Z.ltb_spec limit 0); [lia|].
  rewrite length_take. lia.
Qed.

Lemma getUserNotifications_reads userId includeRead limit w :
  0 <= limit →
  ∃ l w', getUserNotifications userId includeRead limit w = (Ok l, w')
          ∧ (length l <= Z.to_nat limit)%nat
          ∧ redis w' = redis w ∧ io w' = io w ∧ clock w' = clock w.
Proof.
  intros Hlim. unfold getUserNotifications. unfold try_catch, bind at 1.
  destruct (cache_get_reads (mailbox_key userId) w) as (x & w1 & -> & Hr & Hi & Hc).
  unfold bind at 1.
  destruct (as_id_array x w1) as [[ids|e] w2] eqn:Hids.
  - assert (w2 = w1) as ->.
    { unfold as_id_array in Hids. destruct x as [[?|?|z]|]; unfold_m;
        try destruct (z =? 0); by simplify_eq. }
    destruct (collect_reads includeRead (slice0 limit ids) [] w1)
      as (l & w3 & -> & Hlen & Hr3 & Hi3 & Hc3).
    pose proof (slice0_length limit ids Hlim) as Hs. simpl in Hlen.
    eexists _, _. split; [done|]. split_and!; [lia|congruence..].
  - assert (w2 = w1) as ->.
    { unfold as_id_array in Hids. destruct x as [[?|?|z]|]; unfold_m;
        try destruct (z =? 0); by simplify_eq. }
    unfold logger. unfold_m. eexists _, _. split; [done|]. simpl.
    split_and!; [lia|done..].
Qed.

(** X13. The unread count is read-only and saturates: in every world,
    whatever the connection does and whatever the keys hold, it is
    answered, lies between 0 and 50 although a mailbox holds up to 100 ids,
    and neither the key space nor the sockets change. *)
Theorem getUnreadCount_bounded userId w :
  ∃ n w', getUnreadCount userId w = (Ok n, w')
          ∧ 0 <= n <= 50 ∧ redis w' = redis w ∧ io w' = io w.
Proof.
  unfold getUnreadCount. unfold try_catch, bind.
  destruct (getUserNotifications_reads userId false 50 w ltac:(lia))
    as (l & w1 & -> & Hlen & Hr & Hi & _).
  eexists _, _. split; [done|]. split_and!; [lia|lia|done..].
Qed.

Lemma for_of_mark_ok vs : ∀ w,
  faults w = [] → Forall is_notification vs →
  for_of vs mark_and_store w = (Ok tt, set_redis (mark_bodies vs (redis w)) w).
Proof.
  induction vs as [|v vs IH]; intros w Hf Hall; simpl.
  - by destruct w.
  - apply Forall_cons in Hall as [Hv Hall]. destruct v as [n| |]; try done.
    unfold mark_and_store. unfold bind at 1. unfold bind at 1.
    rewrite (proj1 (cache_set_plain_ok _ _ w Hf)). unfold ret at 1.
    rewrite IH by done. done.
Qed.

Lemma mark_bodies_other vs : ∀ m k,
  (∀ n, VNotification n ∈ vs → k ≠ body_key (n_id n)) →
  mark_bodies vs m !! k = m !! k.
Proof.
  induction vs as [|v vs IH]; intros m k Hk; simpl; [done|].
  rewrite IH by (intros n Hn; apply Hk; by right).
  destruct v as [n| |]; try done.
  rewrite lookup_insert_ne; [done|]. apply not_eq_sym, Hk. by left.
Qed.

Lemma mark_bodies_lookup vs m id :
  (mark_bodies vs m !! body_key id = m !! body_key id
   ∧ ∀ n, VNotification n ∈ vs → n_id n ≠ id)
  ∨ ∃ n', mark_bodies vs m !! body_key id
          = Some (mkEntry (VNotification (mark_read n')) None).
Proof.
  induction vs as [|v vs IH] using rev_ind.
  - left. split; [done|]. intros n Hn. by apply elem_of_nil in Hn.
  - unfold mark_bodies in *. rewrite foldl_app. simpl.
    destruct v as [n|l|z].
    + destruct (decide (n_id n = id)) as [<-|Hne].
      * right. rewrite lookup_insert_eq. by eexists.
      * rewrite lookup_insert_ne by (intros Heq; by apply body_key_inj in Heq).
        destruct IH as [[IH1 IH2]|IH]; [left|by right]. split; [done|].
        intros n' Hn'. apply elem_of_app in Hn' as [?|Hn']; [by apply IH2|].
        apply list_elem_of_singleton in Hn'. by simplify_eq.
    + destruct IH as [[IH1 IH2]|IH]; [left|by right]. split; [done|].
      intros n' Hn'. apply elem_of_app in Hn' as [?|Hn']; [by apply IH2|].
      by apply list_elem_of_singleton in Hn'.
    + destruct IH as [[IH1 IH2]|IH]; [left|by right]. split; [done|].
      intros n' Hn'. apply elem_of_app in Hn' as [?|Hn']; [by apply IH2|].
      by apply list_elem_of_singleton in Hn'.
Qed.

Lemma unread_of_elem w ids v :
  v ∈ unread_of w ids →
  ∃ id, id ∈ ids ∧ stored_body w id = Some v ∧ truthy v && negb (field_read v) = true.
Proof.
  unfold unread_of. intros Hin. apply list_elem_of_omap in Hin as (id & Hid & Hv).
  exists id. split; [done|]. destruct (stored_body w id) as [v'|]; [|done].
  destruct (truthy v' && negb (field_read v')) eqn:Hb; by simplify_eq.
Qed.

Lemma unread_of_nil w ids :
  (∀ id v, id ∈ ids → stored_body w id = Some v → truthy v && negb (field_read v) = false) →
  unread_of w ids = [].
Proof.
  intros H. unfold unread_of. induction ids as [|id ids IH]; [done|]. simpl.
  destruct (stored_body w id) as [v|] eqn:Hv.
  - rewrite (H id v) by (done || by left). apply IH. intros ????. eapply H; [by right|done].
  - apply IH. intros ????. eapply H; [by right|done].
Qed.

Lemma page_wf_elem w ids id v :
  page_wf w ids = true → id ∈ ids → stored_body w id = Some v →
  ∃ n, v = VNotification n ∧ n_id n = id.
Proof.
  unfold page_wf. rewrite forallb_forall. intros Hwf Hin Hv.
  specialize (Hwf id). rewrite <- list_elem_of_In in Hwf. specialize (Hwf Hin).
  rewrite Hv in Hwf. destruct v as [n| |]; try done.
  exists n. split; [done|]. by apply String.eqb_eq.
Qed.

(** X14. Marking all as read works on the first 50 ids of the mailbox
    only. On a reachable store, with a well-typed mailbox whose first 50
    ids resolve (if at all) to notifications stored under their own id,
    the call leaves the unread count at 0 and the mailbox as it was, while
    the body of every id outside that page, unread or not, is left exactly
    as it was. *)
Theorem markAll_first_page userId w :
  faults w = [] → mailbox_typed w userId →
  page_wf w (take 50 (mailbox w userId)) = true →
  ∃ w',
    markAllNotificationsAsRead userId w = (Ok tt, w')
    ∧ (getUnreadCount userId w').1 = Ok 0
    ∧ mailbox w' userId = mailbox w userId
    ∧ (∀ id, id ∉ take 50 (mailbox w userId) →
             redis w' !! body_key id = redis w !! body_key id)
    ∧ packets w' = (packets w ++ broadcast w userId EvAllNotificationsRead)%list.
Proof.
  intros Hf Hty Hwf. set (ids := take 50 (mailbox w userId)) in *.
  set (vs := unread_of w ids).
  assert (Hvs : Forall is_notification vs).
  { apply Forall_forall. intros v Hv.
    apply unread_of_elem in Hv as (id & Hid & Hv & _).
    destruct (page_wf_elem w ids id v Hwf Hid Hv) as (n & -> & _). done. }
  assert (Hkeys : ∀ n, VNotification n ∈ vs → n_id n ∈ ids).
  { intros n Hn. apply unread_of_elem in Hn as (id & Hid & Hv & _).
    destruct (page_wf_elem w ids id _ Hwf Hid Hv) as (n' & Hn' & <-). by simplify_eq. }
  set (w1 := set_redis (mark_bodies vs (redis w)) w).
  assert (Hmb : live w1 (mailbox_key userId) = live w (mailbox_key userId)).
  { unfold live. simpl. rewrite mark_bodies_other; [done|].
    intros n _. apply mailbox_key_ne_body_key. }
  unfold markAllNotificationsAsRead. unfold try_catch, bind at 1.
  rewrite getUserNotifications_unread by done. fold ids. fold vs.
  unfold bind at 1. rewrite for_of_mark_ok by done. fold w1.
  unfold io_emit, logger, modify, bind. eexists. split; [done|].
  match goal with |- context [getUnreadCount userId ?x] => set (w2 := x) end.
  assert (Hmb2 : mailbox w2 userId = mailbox w userId).
  { unfold mailbox. change (live w2 (mailbox_key userId)) with (live w1 (mailbox_key userId)).
    by rewrite Hmb. }
  split_and!.
  - unfold getUnreadCount. unfold try_catch, bind.
    rewrite getUserNotifications_unread.
    + rewrite Hmb2. fold ids. rewrite unread_of_nil; [done|].
      intros id v Hid Hv.
      change (stored_body w2 id) with (stored_body w1 id) in Hv.
      destruct (mark_bodies_lookup vs (redis w) id) as [[Hsame Hno]|(n' & Hn')].
      * assert (Hsame' : stored_body w1 id = stored_body w id).
        { unfold stored_body, live. simpl. by rewrite Hsame. }
        rewrite Hsame' in Hv.
        destruct (truthy v && negb (field_read v)) eqn:Hb; [|done]. exfalso.
        destruct (page_wf_elem w ids id v Hwf Hid Hv) as (n & -> & Hnid).
        apply (Hno n); [|done].
        unfold vs, unread_of. apply list_elem_of_omap. exists id. split; [done|].
        by rewrite Hv, Hb.
      * unfold stored_body, live in Hv. simpl in Hv. rewrite Hn' in Hv. simpl in Hv.
        by simplify_eq.
    + done.
    + unfold mailbox_typed.
      change (live w2 (mailbox_key userId)) with (live w1 (mailbox_key userId)).
      by rewrite Hmb.
  - done.
  - intros id Hid. simpl. apply mark_bodies_other.
    intros n Hn Heq. apply Hid. apply body_key_inj in Heq as ->. by apply Hkeys.
  - pose proof (packets_emit w1 userId EvAllNotificationsRead) as Hp.
    unfold packets in *. subst w2. simpl in *. exact Hp.
Qed.

Lemma markAll_first_page_witness :
  let a := mkNotification "a" "bob" None "one" (Some info) None "t" (Some false) in
  let b := mkNotification "b" "bob" None "two" (Some info) None "t" (Some true) in
  let w := mkWorld 1000
             (<[ mailbox_key "bob" := mkEntry (VIds ["a"; "b"; "gone"]) (Some 9000) ]>
                (<[ body_key "a" := mkEntry (VNotification a) (Some 9000) ]>
                   {[ body_key "b" := mkEntry (VNotification b) None ]}))
             [] [] None true in
  ∃ w',
    markAllNotificationsAsRead "bob" w = (Ok tt, w')
    ∧ (getUnreadCount "bob" w').1 = Ok 0
    ∧ mailbox w' "bob" = mailbox w "bob"
    ∧ (∀ id, id ∉ take 50 (mailbox w "bob") →
             redis w' !! body_key id = redis w !! body_key id)
    ∧ packets w' = (packets w ++ broadcast w "bob" EvAllNotificationsRead)%list.
Proof.
  intros a b w. apply (markAll_first_page "bob" w).
  - reflexivity.
  - vm_compute. exact I.
  - vm_compute. reflexivity.
Defined.

(** * Sending: what is reported and what is kept *)

Lemma succeeds_deliverNotification n : succeeds (deliverNotification n).
Proof.
  intros w. unfold deliverNotification, bind, gets. destruct (io w) as [srv|].
  - apply succeeds_try_catch. intros e. apply succeeds_logged.
  - by eexists _, _.
Qed.

Lemma succeeds_storeNotification n ttl : succeeds (storeNotification n ttl).
Proof. apply succeeds_try_catch. intros e. apply succeeds_logged. Qed.

Lemma sendNotification_configured en options w :
  isConfigured w = true → ∃ r w', sendNotification en options w = (Ok r, w').
Proof.
  intros Hc. rewrite sendNotification_eq by done.
  match goal with |- context [deliverNotification ?n w] => set (n0 := n) end.
  destruct (succeeds_deliverNotification n0 w) as (d & w1 & ->).
  destruct (default false (o_persistent options) || negb d).
  - destruct (succeeds_storeNotification n0 (o_ttl options) w1) as (s & w2 & ->).
    by eexists _, _.
  - by eexists _, _.
Qed.

Lemma sendNotification_unconfigured en options w :
  isConfigured w = false →
  sendNotification en options w
  = (Throw (AppError "In-app service not configured" 503 "INAPP_SERVICE_UNAVAILABLE"), w).
Proof. intros Hc. unfold sendNotification. unfold_m. by rewrite Hc. Qed.

(** X15. [sendNotification] raises in one case only: the service is not
    configured, and then it raises the 503 error at once and touches
    nothing. Once configured it always returns, whatever the connection to
    the store and the sockets do, so its 500 INAPP_SEND_FAILED error is
    never produced. *)
Theorem sendNotification_raises_only_unconfigured en options w :
  if isConfigured w
  then ∃ r w', sendNotification en options w = (Ok r, w')
  else sendNotification en options w
       = (Throw (AppError "In-app service not configured" 503 "INAPP_SERVICE_UNAVAILABLE"), w).
Proof.
  destruct (isConfigured w) eqn:Hc.
  - by apply sendNotification_configured.
  - by apply sendNotification_unconfigured.
Qed.




#[local] Instance same_config_preorder : PreOrder same_config.
Proof. split; [done|]. intros w1 w2 w3 H12 H23. unfold same_config in *. congruence. Qed.

Lemma config_round_trip : preserves same_config round_trip.
Proof. intros w. unfold round_trip, same_config. by destruct (faults w) as [|[|] ?]. Qed.

Lemma config_gets {A} (f : World -> A) : preserves same_config (gets f).
Proof. done. Qed.

Lemma config_modify (f : World -> World) :
  (∀ w, isConfigured (f w) = isConfigured w) → preserves same_config (modify f).
Proof. intros Hf w. apply Hf. Qed.

Create HintDb config_db.
#[local] Hint Resolve config_round_trip config_gets : config_db.

Ltac frame_config :=
  repeat first
    [ match goal with |- ∀ _, _ => intro end
    | solve [eauto with config_db]
    | solve [apply config_modify; done]
    | p_bind
    | p_try
    | p_ret
    | p_throw
    | apply preserves_for_of; [apply _|]
    | match goal with
      | |- preserves _ (if ?b then _ else _) => destruct b
      | |- preserves _ (match ?x with _ => _ end) => destruct x
      end ].

Lemma config_sendNotification en options :
  preserves same_config (sendNotification en options).
Proof.
  unfold sendNotification, generateNotificationId, deliverNotification, storeNotification,
    CacheService.set, CacheService.get, CacheService.del, as_id_array, io_emit,
    redis_setex, redis_set, redis_get, redis_del, redis_put, redis_remove, Date_now, logger.
  frame_config.
Qed.

Section Bulk.

Context `{JsRegExp}.

Lemma sendTemplateNotification_outcome en notif w :
  let m := InAppTemplates.sendTemplateNotification en (bi_to notif) (bi_template notif)
             (default [] (bi_variables notif)) (default no_options (bi_options notif)) in
  isConfigured (m w).2 = isConfigured w
  ∧ if isConfigured w && processable notif
    then ∃ r, (m w).1 = Ok r
    else ∃ e, (m w).1 = Throw e.
Proof.
  intros m. subst m. unfold InAppTemplates.sendTemplateNotification, processable.
  destruct (InAppTemplates.processTemplate _ _ _) as [[msg title]|].
  - match goal with |- context [sendNotification en ?o] => set (o0 := o) end.
    pose proof (config_sendNotification en o0 w) as Hcfg. unfold same_config in Hcfg.
    unfold try_catch. rewrite andb_true_r. destruct (isConfigured w) eqn:Hc.
    + destruct (sendNotification_configured en o0 w Hc) as (r & w1 & Hr).
      rewrite Hr in *. split; [done|]. by eexists.
    + rewrite (sendNotification_unconfigured en o0 w Hc). split; [done|]. by eexists.
  - rewrite andb_false_r. unfold_m. unfold logger. unfold_m. split; [done|]. by eexists.
Qed.

Lemma bulk_loop_results items : ∀ acc w,
  ∃ results w',
    InAppTemplates.bulk_loop items acc w = (Ok (acc ++ results)%list, w')
    ∧ Forall2 (fun it r => br_to r = bi_to it.2
                           ∧ br_success r = isConfigured w && processable it.2)
              items results.
Proof.
  induction items as [|[en notif] items IH]; intros acc w; simpl.
  - exists [], w. rewrite app_nil_r. by split.
  - destruct (sendTemplateNotification_outcome en notif w) as [Hcfg Hout].
    cbv zeta in Hcfg, Hout. unfold bind at 1. unfold try_catch, bind at 1.
    destruct (InAppTemplates.sendTemplateNotification _ _ _ _ _ w) as [[r|e] w1];
      simpl in Hcfg, Hout.
    + unfold ret at 1.
      destruct (IH (acc ++ [mkBulkResult (bi_to notif) true (Some r.1) None])%list w1)
        as (results & w' & -> & Hall).
      eexists (_ :: results), w'. rewrite <- app_assoc. split; [done|].
      constructor; simpl.
      * split; [done|]. destruct (isConfigured w && processable notif); [done|].
        by destruct Hout.
      * rewrite Hcfg in Hall. done.
    + unfold ret at 1.
      destruct (IH (acc ++ [mkBulkResult (bi_to notif) false None (Some (exn_message e))])%list w1)
        as (results & w' & -> & Hall).
      eexists (_ :: results), w'. rewrite <- app_assoc. split; [done|].
      constructor; simpl.
      * split; [done|]. destruct (isConfigured w && processable notif); [|done].
        by destruct Hout.
      * rewrite Hcfg in Hall. done.
Qed.

(** X17. A bulk send never raises and never stops early: it returns one
    result per input, in order and for the same recipient, and an input
    succeeds exactly when the service is configured and its template can
    be processed, whatever happened to the inputs before it and whatever
    the store and the sockets do. *)
Theorem sendBulkNotifications_results items w :
  ∃ results w',
    InAppTemplates.sendBulkNotifications items w = (Ok results, w')
    ∧ Forall2 (fun it r => br_to r = bi_to it.2
                           ∧ br_success r = isConfigured w && processable it.2)
              items results.
Proof. apply (bulk_loop_results items [] w). Qed.

End Bulk.

(** * The patterns of the validators *)

Lemma append_cons c (s1 s2 : string) : String c s1 +:+ s2 = String c (s1 +:+ s2).
Proof. reflexivity. Qed.

Lemma append_empty_inv (s1 s2 : string) : s1 +:+ s2 = "" → s1 = "" ∧ s2 = "".
Proof. destruct s1; [done|]. cbn. discriminate. Qed.

Lemma append_cons_inv (s1 s2 : string) c s :
  s1 +:+ s2 = String c s →
  (s1 = "" ∧ s2 = String c s) ∨ ∃ s1', s1 = String c s1' ∧ s = s1' +:+ s2.
Proof.
  destruct s1 as [|c1 s1]; cbn; intros Heq.
  - by left.
  - right. injection Heq as -> <-. by eexists.
Qed.

Lemma append_empty_r (s : string) : s +:+ "" = s.
Proof. induction s as [|c s IH]; [done|]. by rewrite append_cons, IH. Qed.

Lemma append_assoc (s1 s2 s3 : string) : (s1 +:+ s2) +:+ s3 = s1 +:+ (s2 +:+ s3).
Proof. induction s1 as [|c s1 IH]; [done|]. by rewrite !append_cons, IH. Qed.

Lemma nullable_matches r : nullable r = true ↔ matches r "".
Proof.
  split.
  - induction r as [| |p|r1 IH1 r2 IH2|r1 IH1 r2 IH2|r IH]; simpl; intros Hn; try done.
    + constructor.
    + apply andb_true_iff in Hn as [H1 H2].
      change EmptyString with ("" +:+ "")%string. constructor; auto.
    + apply orb_true_iff in Hn as [Hn|Hn]; [apply MAltL|apply MAltR]; auto.
    + constructor.
  - intros Hm. remember EmptyString as s eqn:Hs.
    induction Hm as [|p c Hp|r1 r2 s1 s2 H1 IH1 H2 IH2|r1 r2 s H1 IH1|r1 r2 s H2 IH2
                     |r|r s1 s2 H1 IH1 H2 IH2]; simpl; try done.
    + apply append_empty_inv in Hs as [-> ->]. by rewrite IH1, IH2.
    + by rewrite IH1.
    + rewrite IH2 by done. apply orb_true_r.
Qed.

Lemma deriv_matches_1 c r : ∀ s, matches (deriv c r) s → matches r (String c s).
Proof.
  induction r as [| |p|r1 IH1 r2 IH2|r1 IH1 r2 IH2|r IH]; simpl; intros s Hm.
  - inversion Hm.
  - inversion Hm.
  - destruct (p c) eqn:Hp; inversion Hm; subst. by constructor.
  - destruct (nullable r1) eqn:Hn.
    + inversion Hm as [| | | ? ? ? Hl | ? ? ? Hr | |]; subst.
      * inversion Hl as [| |? ? s1 s2 Ha Hb| | | |]; subst.
        change (String c (s1 +:+ s2)) with (String c s1 +:+ s2). constructor; auto.
      * change (String c s) with ("" +:+ String c s). constructor; auto.
        by apply nullable_matches.
    + inversion Hm as [| |? ? s1 s2 Ha Hb| | | |]; subst.
      change (String c (s1 +:+ s2)) with (String c s1 +:+ s2). constructor; auto.
  - inversion Hm; subst; [apply MAltL|apply MAltR]; auto.
  - inversion Hm as [| |? ? s1 s2 Ha Hb| | | |]; subst.
    change (String c (s1 +:+ s2)) with (String c s1 +:+ s2). constructor; auto.
Qed.

Lemma deriv_matches_2 r s0 :
  matches r s0 → ∀ c s, s0 = String c s → matches (deriv c r) s.
Proof.
  intros Hm.
  induction Hm as [|p c' Hp|r1 r2 s1 s2 H1 IH1 H2 IH2|r1 r2 s' H1 IH1|r1 r2 s' H2 IH2
                   |r|r s1 s2 H1 IH1 H2 IH2]; intros c s Hs; simpl.
  - done.
  - injection Hs as -> <-. rewrite Hp. constructor.
  - apply append_cons_inv in Hs as [[-> ->]|(s1' & -> & ->)].
    + apply nullable_matches in H1. rewrite H1. apply MAltR. by apply IH2.
    + destruct (nullable r1).
      * apply MAltL. constructor; [by apply IH1|done].
      * constructor; [by apply IH1|done].
  - apply MAltL. by apply IH1.
  - apply MAltR. by apply IH2.
  - done.
  - apply append_cons_inv in Hs as [[-> ->]|(s1' & -> & ->)].
    + by apply IH2.
    + constructor; [by apply IH1|done].
Qed.

(** The matcher decides the words of the pattern. *)
Lemma test_matches s : ∀ r, test r s = true ↔ matches r s.
Proof.
  induction s as [|c s IH]; intros r; simpl.
  - apply nullable_matches.
  - rewrite IH. split; [apply deriv_matches_1|]. intros Hm.
    by eapply deriv_matches_2.
Qed.

Lemma matches_cat r1 r2 s :
  matches (RCat r1 r2) s ↔ ∃ s1 s2, s = s1 +:+ s2 ∧ matches r1 s1 ∧ matches r2 s2.
Proof.
  split.
  - intros Hm. inversion Hm; subst. by eexists _, _.
  - intros (s1 & s2 & -> & H1 & H2). by constructor.
Qed.

Lemma matches_class p s : matches (RClass p) s ↔ ∃ c, s = String c "" ∧ p c = true.
Proof.
  split.
  - intros Hm. inversion Hm; subst. by eexists.
  - intros (c & -> & Hp). by constructor.
Qed.

Lemma matches_opt r s : matches (ROpt r) s ↔ s = "" ∨ matches r s.
Proof.
  unfold ROpt. split.
  - intros Hm. inversion Hm as [| | | ? ? ? Hl | ? ? ? Hr | |]; subst; [|by right].
    inversion Hl. by left.
  - intros [->|Hm]; [apply MAltL; constructor|by apply MAltR].
Qed.

Lemma all_chars_app p s1 s2 :
  all_chars p (s1 +:+ s2) = all_chars p s1 && all_chars p s2.
Proof. induction s1 as [|c s1 IH]; [done|]. rewrite append_cons. simpl. by rewrite IH, andb_assoc. Qed.

Lemma length_append (s1 s2 : string) :
  String.length (s1 +:+ s2) = (String.length s1 + String.length s2)%nat.
Proof. induction s1 as [|c s1 IH]; [done|]. rewrite append_cons. simpl. by rewrite IH. Qed.

Lemma matches_star_class p s : matches (RStar (RClass p)) s ↔ all_chars p s = true.
Proof.
  split.
  - intros Hm. remember (RStar (RClass p)) as r eqn:Hr.
    induction Hm as [| | | | |r|r s1 s2 H1 IH1 H2 IH2]; try done.
    injection Hr as ->. rewrite all_chars_app, IH2 by done.
    inversion H1; subst. simpl. by rewrite H0.
  - induction s as [|c s IH]; simpl; intros Ha; [constructor|].
    apply andb_true_iff in Ha as [Hc Hs].
    change (String c s) with (String c "" +:+ s). constructor; [by constructor|auto].
Qed.

Lemma matches_plus_class p s :
  matches (RPlus (RClass p)) s ↔ s ≠ "" ∧ all_chars p s = true.
Proof.
  unfold RPlus. rewrite matches_cat. split.
  - intros (s1 & s2 & -> & H1 & H2). apply matches_class in H1 as (c & -> & Hc).
    apply matches_star_class in H2. split; [done|].
    rewrite all_chars_app. simpl. by rewrite Hc, H2.
  - intros [Hne Ha]. destruct s as [|c s]; [done|]. simpl in Ha.
    apply andb_true_iff in Ha as [Hc Hs]. exists (String c ""), s.
    split; [done|]. split; [by constructor|by apply matches_star_class].
Qed.

Lemma matches_upto_class p k : ∀ s,
  matches (RUpTo (RClass p) k) s ↔ (String.length s <= k)%nat ∧ all_chars p s = true.
Proof.
  induction k as [|k IH]; intros s; simpl.
  - split.
    + intros Hm. inversion Hm. by split.
    + intros [Hl _]. destruct s; [constructor|simpl in Hl; lia].
  - rewrite matches_opt, matches_cat. split.
    + intros [->|(s1 & s2 & -> & H1 & H2)]; [split; [simpl; lia|done]|].
      apply matches_class in H1 as (c & -> & Hc). apply IH in H2 as [Hl Ha].
      rewrite all_chars_app, length_append. simpl. rewrite Hc, Ha. split; [lia|done].
    + intros [Hl Ha]. destruct s as [|c s]; [by left|right]. simpl in *.
      apply andb_true_iff in Ha as [Hc Hs]. exists (String c ""), s.
      split; [done|]. split; [by constructor|]. apply IH. split; [lia|done].
Qed.

Lemma validate_email_eq recipient :
  validateRecipientFormat "EMAIL" recipient = test email_re recipient.
Proof. reflexivity. Qed.

Lemma validate_sms_eq recipient :
  validateRecipientFormat "SMS" recipient = test phone_re (remove_spaces recipient).
Proof. reflexivity. Qed.

Lemma phone_re_words s :
  test phone_re s = true ↔
  ∃ d ds, (s = String d ds ∨ s = String "+" (String d ds))
          ∧ is_digit d = true ∧ d ≠ "0"%char
          ∧ all_chars is_digit ds = true ∧ (1 <= String.length ds <= 14)%nat.
Proof.
  rewrite test_matches. unfold phone_re. rewrite matches_cat. split.
  - intros (s1 & s2 & -> & H1 & H2).
    apply matches_cat in H2 as (t1 & t2 & -> & Ht1 & Ht2).
    apply matches_class in Ht1 as (d & -> & Hd).
    apply matches_cat in Ht2 as (u1 & u2 & -> & Hu1 & Hu2).
    apply matches_class in Hu1 as (e & -> & He).
    apply matches_upto_class in Hu2 as [Hlen Hall].
    apply andb_true_iff in Hd as [Hd Hz]. apply negb_true_iff in Hz.
    unfold is_char in Hz. apply Ascii.eqb_neq in Hz.
    exists d, (String e u2). split_and!.
    + apply matches_opt in H1 as [->|H1]; [by left|right].
      apply matches_class in H1 as (c & -> & Hc). unfold is_char in Hc.
      apply Ascii.eqb_eq in Hc as <-. done.
    + done.
    + by apply not_eq_sym.
    + simpl. by rewrite He, Hall.
    + simpl. lia.
    + simpl. lia.
  - intros (d & ds & Hs & Hd & Hz & Hall & Hlen).
    destruct ds as [|e u2]; [simpl in Hlen; lia|]. simpl in Hall, Hlen.
    apply andb_true_iff in Hall as [He Hall].
    assert (Hbody : matches
      (RCat (RClass (fun c => is_digit c && negb (is_char "0" c)))
         (RCat (RClass is_digit) (RUpTo (RClass is_digit) 13))) (String d (String e u2))).
    { change (String d (String e u2)) with (String d "" +:+ (String e "" +:+ u2)).
      constructor.
      - constructor. rewrite Hd, andb_true_l. apply negb_true_iff. unfold is_char.
        apply Ascii.eqb_neq. by apply not_eq_sym.
      - constructor; [by constructor|]. apply matches_upto_class. split; [lia|done]. }
    destruct Hs as [-> | ->].
    + exists "", (String d (String e u2)). split; [done|].
      split; [apply matches_opt; by left|done].
    + exists (String "+" ""), (String d (String e u2)). split; [done|].
      split; [|done]. apply matches_opt. right. constructor. reflexivity.
Qed.

(** X18. Which phone recipients the request validation accepts: with the
    whitespace removed, an optional [+], then a digit other than 0, then
    between 1 and 14 further digits, and nothing else. *)
Theorem sms_recipient_characterised recipient :
  validateRecipientFormat "SMS" recipient = true ↔
  ∃ d ds, (remove_spaces recipient = String d ds
           ∨ remove_spaces recipient = String "+" (String d ds))
          ∧ is_digit d = true ∧ d ≠ "0"%char
          ∧ all_chars is_digit ds = true ∧ (1 <= String.length ds <= 14)%nat.
Proof. rewrite validate_sms_eq. apply phone_re_words. Qed.

(** X19. Which e-mail recipients the request validation accepts: a local
    part, an [@], a domain, a dot and a last label, each of the three
    non-empty and free of whitespace and of [@]; so exactly one [@], and a
    dot after it that is neither its neighbour nor the last character. *)
Theorem email_recipient_characterised recipient :
  validateRecipientFormat "EMAIL" recipient = true ↔
  ∃ l d t, recipient = l +:+ "@" +:+ d +:+ "." +:+ t
           ∧ l ≠ "" ∧ d ≠ "" ∧ t ≠ ""
           ∧ all_chars not_space_at l = true
           ∧ all_chars not_space_at d = true
           ∧ all_chars not_space_at t = true.
Proof.
  rewrite validate_email_eq, test_matches. unfold email_re. split.
  - intros Hm.
    apply matches_cat in Hm as (l & s2 & -> & Hl & Hm).
    apply matches_cat in Hm as (a & s3 & -> & Ha & Hm).
    apply matches_cat in Hm as (d & s4 & -> & Hd & Hm).
    apply matches_cat in Hm as (dot & t & -> & Hdot & Ht).
    apply matches_plus_class in Hl as [Hl1 Hl2].
    apply matches_plus_class in Hd as [Hd1 Hd2].
    apply matches_plus_class in Ht as [Ht1 Ht2].
    apply matches_class in Ha as (c1 & -> & Hc1). apply Ascii.eqb_eq in Hc1 as <-.
    apply matches_class in Hdot as (c2 & -> & Hc2). apply Ascii.eqb_eq in Hc2 as <-.
    exists l, d, t. by split_and!.
  - intros (l & d & t & -> & Hl1 & Hd1 & Ht1 & Hl2 & Hd2 & Ht2).
    constructor; [by apply matches_plus_class|].
    constructor; [by constructor|].
    constructor; [by apply matches_plus_class|].
    constructor; [by constructor|by apply matches_plus_class].
Qed.

(** * Phone numbers in the SMS service *)

Lemma space_not_digit_or_plus c : is_space c = true → digit_or_plus c = false.
Proof. destruct c as [[] [] [] [] [] [] [] []]; by vm_compute. Qed.

Lemma keep_remove_spaces s : keep_digits_plus (remove_spaces s) = keep_digits_plus s.
Proof.
  induction s as [|c s IH]; simpl; [done|].
  destruct (is_space c) eqn:Hsp.
  - by rewrite (space_not_digit_or_plus c Hsp).
  - simpl. by rewrite IH.
Qed.

Lemma keep_all s : all_chars digit_or_plus s = true → keep_digits_plus s = s.
Proof.
  induction s as [|c s IH]; simpl; [done|]. intros Ha.
  apply andb_true_iff in Ha as [-> Hs]. by rewrite IH.
Qed.

Lemma keep_is_all s : all_chars digit_or_plus (keep_digits_plus s) = true.
Proof.
  induction s as [|c s IH]; simpl; [done|].
  destruct (digit_or_plus c) eqn:Hc; [|done]. simpl. by rewrite Hc.
Qed.

Lemma digits_are_digit_or_plus s :
  all_chars is_digit s = true → all_chars digit_or_plus s = true.
Proof.
  induction s as [|c s IH]; simpl; [done|]. intros Ha.
  apply andb_true_iff in Ha as [Hc Hs]. unfold digit_or_plus at 1. by rewrite Hc, IH.
Qed.

Lemma all_dp_digit d ds :
  is_digit d = true → all_chars digit_or_plus ds = true →
  all_chars digit_or_plus (String d ds) = true.
Proof. intros Hd Ha. simpl. unfold digit_or_plus at 1. by rewrite Hd, Ha. Qed.

Lemma all_dp_plus ds :
  all_chars digit_or_plus ds = true → all_chars digit_or_plus (String "+" ds) = true.
Proof. intros Ha. simpl. by rewrite Ha. Qed.

Lemma startsWith_plus_cons c s : startsWith_plus (String c s) = is_char "+" c.
Proof. reflexivity. Qed.

Lemma digit_not_plus d : is_digit d = true → is_char "+" d = false.
Proof. destruct d as [[] [] [] [] [] [] [] []]; by vm_compute. Qed.

(** X20. What the SMS service makes of a recipient the request validation
    accepted: its own clean-up removes exactly the whitespace, its own
    validation accepts the recipient too, and a number given without [+]
    is dialled with the prefix [+1]; the dialled number passes the
    service's validation again only if the recipient had a [+] or at most
    14 digits. *)
Theorem sms_recipient_formatted recipient :
  validateRecipientFormat "SMS" recipient = true →
  sanitizePhoneNumber recipient = remove_spaces recipient
  ∧ validatePhoneNumber recipient = true
  ∧ formatPhoneNumber recipient
    = (if startsWith_plus (remove_spaces recipient) then remove_spaces recipient
       else "+1" +:+ remove_spaces recipient)
  ∧ validatePhoneNumber (formatPhoneNumber recipient)
    = (startsWith_plus (remove_spaces recipient)
       || (String.length (remove_spaces recipient) <=? 14)%nat).
Proof.
  intros Hv. rewrite validate_sms_eq in Hv. pose proof Hv as Hre.
  apply phone_re_words in Hv as (d & ds & Hs & Hd & Hz & Hall & Hlen).
  pose proof (digits_are_digit_or_plus ds Hall) as Hall'.
  assert (Hclean : keep_digits_plus recipient = remove_spaces recipient).
  { rewrite <- keep_remove_spaces. apply keep_all.
    destruct Hs as [-> | ->]; [|apply all_dp_plus]; by apply all_dp_digit. }
  unfold sanitizePhoneNumber, validatePhoneNumber, formatPhoneNumber.
  rewrite Hclean. split; [done|]. split; [done|].
  destruct Hs as [Hs|Hs]; rewrite Hs in *; rewrite !startsWith_plus_cons.
  - rewrite (digit_not_plus d Hd). simpl negb. cbv iota. split; [done|].
    rewrite orb_false_l.
    assert (Hk : keep_digits_plus ("+1" +:+ String d ds) = "+1" +:+ String d ds).
    { apply keep_all. change ("+1" +:+ String d ds) with (String "+" (String "1" (String d ds))).
      apply all_dp_plus, all_dp_digit; [done|]. by apply all_dp_digit. }
    rewrite Hk. simpl String.length.
    destruct (Nat.leb_spec (S (String.length ds)) 14) as [Hle|Hgt].
    + apply phone_re_words. exists "1"%char, (String d ds). split_and!.
      * by right.
      * done.
      * done.
      * simpl. by rewrite Hd, Hall.
      * simpl. lia.
      * simpl. lia.
    + apply not_true_is_false. intros Ht.
      apply phone_re_words in Ht as (d' & ds' & Hs' & _ & _ & _ & Hlen').
      change ("+1" +:+ String d ds) with (String "+" (String "1" (String d ds))) in Hs'.
      destruct Hs' as [Hs'|Hs']; simplify_eq; simpl in Hlen'; lia.
  - change (is_char "+" "+") with true. simpl negb. cbv iota. split; [done|].
    rewrite orb_true_l. rewrite keep_all; [done|].
    apply all_dp_plus. by apply all_dp_digit.
Qed.

Lemma sms_recipient_formatted_witness :
  sanitizePhoneNumber "44 7911 123456" = remove_spaces "44 7911 123456"
  ∧ validatePhoneNumber "44 7911 123456" = true
  ∧ formatPhoneNumber "44 7911 123456"
    = (if startsWith_plus (remove_spaces "44 7911 123456")
       then remove_spaces "44 7911 123456"
       else "+1" +:+ remove_spaces "44 7911 123456")
  ∧ validatePhoneNumber (formatPhoneNumber "44 7911 123456")
    = (startsWith_plus (remove_spaces "44 7911 123456")
       || (String.length (remove_spaces "44 7911 123456") <=? 14)%nat).
Proof. apply (sms_recipient_formatted "44 7911 123456"). reflexivity. Defined.

(** X21. The number handed to Twilio always starts with [+] and holds
    only digits and [+], and formatting it again changes nothing. *)
Theorem formatPhoneNumber_shape phoneNumber :
  startsWith_plus (formatPhoneNumber phoneNumber) = true
  ∧ all_chars digit_or_plus (formatPhoneNumber phoneNumber) = true
  ∧ formatPhoneNumber (formatPhoneNumber phoneNumber) = formatPhoneNumber phoneNumber.
Proof.
  pose proof (keep_is_all phoneNumber) as Hk.
  assert (H1 : startsWith_plus (formatPhoneNumber phoneNumber) = true).
  { unfold formatPhoneNumber.
    destruct (startsWith_plus (keep_digits_plus phoneNumber)) eqn:Hp; simpl; done. }
  assert (H2 : all_chars digit_or_plus (formatPhoneNumber phoneNumber) = true).
  { unfold formatPhoneNumber.
    destruct (startsWith_plus (keep_digits_plus phoneNumber)); [exact Hk|].
    change (all_chars digit_or_plus
              (String "+" (String "1" (keep_digits_plus phoneNumber))) = true).
    apply all_dp_plus. by apply all_dp_digit. }
  split; [done|]. split; [done|].
  unfold formatPhoneNumber at 1. rewrite (keep_all _ H2). by rewrite H1.
Qed.

(** * Requests the validation lets through *)









Lemma trim_empty_length message :
  (1 <= String.length (trim message))%nat → message ≠ "".
Proof. intros Hl ->. vm_compute in Hl. lia. Qed.

(** X23. The validation is complete for plain requests: a request with a
    channel among the three names, a string recipient in the format of
    that channel, a string message whose trimmed text has between 1 and
    5000 characters, and no optional field, reaches the handler, which is
    given the body with the message trimmed. *)
Theorem wellformed_request_accepted `{ValidatorJs} {Handled : Type}
    (handler : ReqBody -> Handled) (now : Z) (to c message : string) :
  c = "EMAIL" ∨ c = "SMS" ∨ c = "IN_APP" →
  validateRecipientFormat c to = true →
  (1 <= String.length (trim message) <= 5000)%nat →
  notification_route handler now
    (mkBody (JStr to) (JStr c) JUndefined (JStr message) JUndefined JUndefined JUndefined)
  = inr (handler (mkBody (JStr to) (JStr c) JUndefined (JStr (trim message))
                    JUndefined JUndefined JUndefined)).
Proof.
  intros Hc Hto [Hlo Hhi].
  assert (Hto_ne : String.eqb to "" = false).
  { apply String.eqb_neq. intros ->. destruct Hc as [-> | [-> | ->]]; by vm_compute in Hto. }
  assert (Hmsg_ne : String.eqb message "" = false).
  { apply String.eqb_neq. apply trim_empty_length. lia. }
  assert (Hres : validationResult now
            (mkBody (JStr to) (JStr c) JUndefined (JStr message) JUndefined JUndefined
               JUndefined) = []).
  { unfold validationResult, validate_to, validate_channel, validate_subject,
      validate_message, validate_templateId, validate_variables, validate_sendAt.
    cbn [b_to b_channel b_subject b_message b_templateId b_variables b_sendAt
         is_undefined ev_toString js_String].
    rewrite Hto_ne, Hmsg_ne.
    apply Nat.leb_le in Hlo, Hhi. rewrite Hlo, Hhi.
    assert (Hcustom : to_custom (JStr to) (JStr c) = None).
    { destruct Hc as [-> | [-> | ->]]; cbn.
      - rewrite validate_email_eq in Hto. by rewrite Hto.
      - rewrite validate_sms_eq in Hto. by rewrite Hto.
      - done. }
    rewrite Hcustom.
    assert (Hch : String.eqb c "EMAIL" || String.eqb c "SMS" || String.eqb c "IN_APP" = true).
    { destruct Hc as [-> | [-> | ->]]; done. }
    rewrite Hch. done. }
  unfold notification_route. rewrite Hres. done.
Qed.

Lemma wellformed_request_accepted_witness :
  let V := Build_ValidatorJs (fun _ => true) (fun _ => None) in
  @notification_route V bool (fun _ => true) 0
    (mkBody (JStr "alice@example.org") (JStr "EMAIL") JUndefined (JStr " hello ")
       JUndefined JUndefined JUndefined)
  = inr ((fun _ => true)
           (mkBody (JStr "alice@example.org") (JStr "EMAIL") JUndefined
              (JStr (trim " hello ")) JUndefined JUndefined JUndefined)).
Proof.
  intros V.
  apply (@wellformed_request_accepted V bool (fun _ => true) 0
           "alice@example.org" "EMAIL" " hello ").
  - left. reflexivity.
  - reflexivity.
  - vm_compute. lia.
Defined.

(** * Sending an SMS *)



(** X25. What a successful [sendSms] guarantees: the service is
    configured, the message has at most 1600 characters, and Twilio
    accepted exactly that message for the formatted number, from the
    sender of the options or else the configured one; the answer is the
    sid and status Twilio gave. *)
Theorem sendSms_sent svc options w r w' :
  sendSms svc options w = (Ok r, w') →
  ∃ create message,
    sms_isConfigured svc = true ∧ sms_client svc = Some create
    ∧ (String.length (sms_message options) <= 1600)%nat
    ∧ create (mkCreate (sms_message options)
                (default "" (js_or (sms_from options) (Some (sms_fromNumber svc))))
                (formatPhoneNumber (sms_to options))) = inr message
    ∧ r = (sid message, m_status message).
Proof.
  unfold sendSms. intros Hr.
  destruct (sms_isConfigured svc); [|by unfold_m].
  destruct (sms_client svc) as [create|]; [|by unfold_m].
  destruct (sendSms_try create (sms_fromNumber svc) options) as [err|message] eqn:Htry.
  - unfold logger in Hr. unfold_m. repeat case_match; done.
  - unfold logger in Hr. unfold_m. simplify_eq.
    unfold sendSms_try in Htry.
    destruct (Nat.ltb_spec 1600 (String.length (sms_message options))); [done|].
    exists create, message. split_and!; try done; try lia.
    destruct (create _) as [e|m]; [done|]. by simplify_eq.
Qed.

Lemma sendSms_sent_witness :
  let create := fun _ : CreateParams => inr (mkMessage "SM1" "queued") in
  let svc := mkSmsClient true (Some create) "+15005550006" in
  let options := mkSms "(415) 555-2671" "hello" None in
  ∃ create message,
    sms_isConfigured svc = true ∧ sms_client svc = Some create
    ∧ (String.length (sms_message options) <= 1600)%nat
    ∧ create (mkCreate (sms_message options)
                (default "" (js_or (sms_from options) (Some (sms_fromNumber svc))))
                (formatPhoneNumber (sms_to options))) = inr message
    ∧ ("SM1", "queued") = (sid message, m_status message).
Proof.
  intros create svc options.
  apply (sendSms_sent svc options empty_world ("SM1", "queued")
           (add_log (LInfo, "SMS sent successfully") empty_world)).
  reflexivity.
Defined.

(** X26. The segment count of the SMS preview: the character count is the
    length of the processed text; one segment holds up to 160 characters
    and [n > 1] segments hold up to [153 n], with no segment to spare; a
    text [sendSms] would accept (at most 1600 characters) takes at most 11
    segments. *)
Theorem generatePreview_segments `{JsRegExp} template variables content cc sc :
  SmsService.generatePreview template variables = Some (content, cc, sc) →
  cc = Z.of_nat (String.length content)
  ∧ 1 <= sc
  ∧ cc <= (if sc =? 1 then 160 else 153 * sc)
  ∧ (1 < sc → 153 * (sc - 1) < cc)
  ∧ (cc <= 1600 → sc <= 11).
Proof.
  unfold SmsService.generatePreview. intros Hp.
  destruct (SmsService.processTemplate template variables) as [msg|]; [|done].
  injection Hp as <- <- <-. split; [done|].
  set (cc := Z.of_nat (String.length msg)). unfold Math_ceil_div.
  destruct (Z.ltb_spec 160 cc) as [Hlt|Hle].
  - pose proof (Z.mul_div_le (- cc) 153 ltac:(lia)) as H1.
    pose proof (Z.mul_succ_div_gt (- cc) 153 ltac:(lia)) as H2.
    assert (Hsc : 2 <= - (- cc / 153)).
    { assert (- cc / 153 <= -161 / 153) by (apply Z.div_le_mono; lia).
      change (-161 / 153) with (-2) in *. lia. }
    destruct (Z.eqb_spec (- (- cc / 153)) 1) as [?|_]; [lia|].
    split_and!; lia.
  - simpl. split_and!; lia.
Qed.

Lemma generatePreview_segments_witness :
  let content := string_of_list_ascii (repeat "a"%char 307) in
  307 = Z.of_nat (String.length content)
  ∧ 1 <= 3
  ∧ 307 <= (if 3 =? 1 then 160 else 153 * 3)
  ∧ (1 < 3 → 153 * (3 - 1) < 307)
  ∧ (307 <= 1600 → 3 <= 11).
Proof.
  intros content.
  apply (@generatePreview_segments literal_engine content [] content 307 3).
  vm_compute. reflexivity.
Defined.

(** * Storing with a TTL the store refuses *)

Lemma cache_set_refused k v ttl w :
  faults w = [] → ttl < 0 →
  CacheService.set k v (Some ttl) w
  = (Ok false, add_log (LError, "Cache set error for key " +:+ k +:+ ":") w).
Proof.
  intros Hf Httl. unfold CacheService.set, truthy_num. unfold_redis. unfold_m.
  destruct (Z.eqb_spec ttl 0) as [?|_]; [lia|]. simpl.
  destruct (Z.leb_spec ttl 0) as [_|?]; [|lia]. by rewrite Hf.
Qed.

(** X27. A negative TTL makes [storeNotification] report success while
    storing nothing, and it can still destroy: on a reachable store both
    writes are refused, so the mailbox is as before and the new
    notification is not kept, but the bodies of the ids that the new id
    would have pushed beyond 100 are deleted all the same, although the
    mailbox still lists them. *)
Theorem storeNotification_negative_ttl n ttl w :
  faults w = [] → ttl < 0 → mailbox_typed w (n_to n) →
  ∃ w',
    storeNotification n (Some ttl) w = (Ok true, w')
    ∧ redis w' = delete_bodies (drop 100 (n_id n :: mailbox w (n_to n))) (redis w)
    ∧ mailbox w' (n_to n) = mailbox w (n_to n)
    ∧ (stored_body w (n_id n) = None → stored_body w' (n_id n) = None)
    ∧ ∀ id, id ∈ drop 100 (n_id n :: mailbox w (n_to n)) → stored_body w' id = None.
Proof.
  intros Hf Httl Hty.
  assert (Hd : ttl_or_default (Some ttl) = ttl).
  { simpl. destruct (Z.eqb_spec ttl 0); [lia|done]. }
  set (old := mailbox w (n_to n)).
  set (m' := delete_bodies (drop 100 (n_id n :: old)) (redis w)).
  assert (Hrun : ∃ w', storeNotification n (Some ttl) w = (Ok true, w')
                       ∧ redis w' = m' ∧ clock w' = clock w).
  { unfold storeNotification. rewrite Hd.
    unfold try_catch at 1. unfold bind at 1.
    rewrite cache_set_refused by done.
    unfold bind at 1. rewrite cache_get_ok by done.
    change (live (add_log ?l w) ?k) with (live w k).
    assert (Harr : ∀ w', as_id_array (e_val <$> live w (mailbox_key (n_to n))) w'
                         = (Ok old, w')).
    { intros w'. subst old. unfold mailbox, mailbox_typed in *.
      by destruct (live w (mailbox_key (n_to n))) as [[[?|?|?] ?]|]. }
    unfold bind at 1. rewrite Harr.
    destruct (100 <? length (n_id n :: old))%nat eqn:Hlen.
    - unfold bind at 1. unfold bind at 1. rewrite for_of_del_ok by done.
      unfold ret at 1. unfold bind at 1. rewrite cache_set_refused by done.
      unfold ret. eexists. by split_and!.
    - apply Nat.ltb_ge in Hlen. subst m'.
      rewrite (drop_ge (n_id n :: old)) by done.
      unfold bind at 1. unfold ret at 1. unfold bind at 1.
      rewrite cache_set_refused by done. unfold ret. eexists. by split_and!. }
  destruct Hrun as (w' & Hrun & Hr & Hc). exists w'. split; [done|]. split; [done|].
  assert (Hlive : ∀ k, live w' k = live (set_redis m' w) k).
  { intros k. by apply live_ext. }
  split_and!.
  - unfold mailbox. rewrite Hlive. unfold live. simpl. subst m'.
    rewrite delete_bodies_other; [done|]. intros id _. apply mailbox_key_ne_body_key.
  - unfold stored_body. rewrite Hlive. unfold live. simpl. intros Hnone. subst m'.
    destruct (decide (n_id n ∈ drop 100 (n_id n :: old))) as [Hin|Hnin].
    + by rewrite delete_bodies_gone.
    + rewrite delete_bodies_other; [done|].
      intros id Hid Heq. apply body_key_inj in Heq as <-. done.
  - intros id Hin. unfold stored_body. rewrite Hlive. unfold live. simpl. subst m'.
    by rewrite delete_bodies_gone.
Qed.

Lemma storeNotification_negative_ttl_witness :
  let n := mkNotification "new" "dave" None "hello" (Some info) None "t" (Some false) in
  let w := send_many "dave" 100 offline_world in
  ∃ w',
    storeNotification n (Some (-1)) w = (Ok true, w')
    ∧ redis w' = delete_bodies (drop 100 (n_id n :: mailbox w (n_to n))) (redis w)
    ∧ mailbox w' (n_to n) = mailbox w (n_to n)
    ∧ (stored_body w (n_id n) = None → stored_body w' (n_id n) = None)
    ∧ ∀ id, id ∈ drop 100 (n_id n :: mailbox w (n_to n)) → stored_body w' id = None.
Proof.
  intros n w. apply (storeNotification_negative_ttl n (-1) w).
  - vm_compute. reflexivity.
  - reflexivity.
  - vm_compute. exact I.
Defined.
